(** * Resume optimiser (main.py): a shallow embedding and its properties

    The program reads a résumé PDF, analyses its text with a few regular
    expressions, assembles an instruction for a remote text model, saves the
    reply as a [.tex] file and draws a preview of it with FPDF.

    Python [str] values are sequences of Unicode code points and are modelled
    as [list N]; files hold bytes (also [list N], each below 256).  The
    regular expressions of the source are transcribed into a small syntax
    tree and run by a backtracking matcher with the priorities of Python's
    [re] (leftmost start, greedy or lazy repetition, ordered alternation).
    Statements that touch the outside (files, environment, console, PDF
    reader, remote model, FPDF) thread a [World] and may raise.

    A remark on the source: the instruction literal of
    [optimize_resume_with_gemini] (lines 179-324) is written as a non-raw
    f-string although it contains LaTeX markup ([{tabular*}], [\underline],
    ...).  The embedding reads that literal as the text on the page, with
    only the seven replacement fields substituted. *)

From Stdlib Require Import String Ascii.
From stdpp Require Import base option list gmap.

Set Default Proof Using "Type".
Open Scope N_scope.

(** ** Strings and bytes *)

Abbreviation str := (list N).
Abbreviation bytes := (list N).

Module Utf8.

Definition cont (b : N) : bool := (0x80 <=? b) && (b <=? 0xBF).
Definition between (lo hi b : N) : bool := (lo <=? b) && (b <=? hi).
Definition low6 (b : N) : N := b - 0x80.

(** Strict UTF-8 decoding, as the [utf-8] codec does it: overlong forms,
    surrogates and values above U+10FFFF are errors ([None]). *)
Fixpoint decode (b : bytes) : option str :=
  match b with
  | [] => Some []
  | b0 :: r =>
    if b0 <? 0x80 then cons b0 <$> decode r
    else if between 0xC2 0xDF b0 then
      match r with
      | b1 :: r1 =>
        if cont b1 then cons ((b0 - 0xC0) * 64 + low6 b1) <$> decode r1 else None
      | _ => None
      end
    else if between 0xE0 0xEF b0 then
      match r with
      | b1 :: b2 :: r2 =>
        if between (if b0 =? 0xE0 then 0xA0 else 0x80)
                   (if b0 =? 0xED then 0x9F else 0xBF) b1 && cont b2
        then cons ((b0 - 0xE0) * 4096 + low6 b1 * 64 + low6 b2) <$> decode r2
        else None
      | _ => None
      end
    else if between 0xF0 0xF4 b0 then
      match r with
      | b1 :: b2 :: b3 :: r3 =>
        if between (if b0 =? 0xF0 then 0x90 else 0x80)
                   (if b0 =? 0xF4 then 0x8F else 0xBF) b1 && cont b2 && cont b3
        then cons ((b0 - 0xF0) * 262144 + low6 b1 * 4096 + low6 b2 * 64 + low6 b3)
               <$> decode r3
        else None
      | _ => None
      end
    else None
  end.

Definition encode1 (c : N) : option bytes :=
  if c <? 0x80 then Some [c]
  else if c <? 0x800 then Some [0xC0 + c / 64; 0x80 + c mod 64]
  else if between 0xD800 0xDFFF c then None
  else if c <? 0x10000 then
    Some [0xE0 + c / 4096; 0x80 + (c / 64) mod 64; 0x80 + c mod 64]
  else if c <=? 0x10FFFF then
    Some [0xF0 + c / 262144; 0x80 + (c / 4096) mod 64; 0x80 + (c / 64) mod 64;
          0x80 + c mod 64]
  else None.

(** Encoding fails on a lone surrogate (UnicodeEncodeError). *)
Fixpoint encode (s : str) : option bytes :=
  match s with
  | [] => Some []
  | c :: s' =>
    match encode1 c, encode s' with
    | Some b, Some r => Some (b ++ r)
    | _, _ => None
    end
  end.

End Utf8.

Fixpoint bytes_of_string (s : string) : bytes :=
  match s with
  | EmptyString => []
  | String a s' => N_of_ascii a :: bytes_of_string s'
  end.

(** A literal of the source: the code points of the text between the quotes
    (the Rocq literal holds its UTF-8 bytes). *)
Definition u (s : string) : str := default [] (Utf8.decode (bytes_of_string s)).
Arguments u _%_string : simpl never.

Definition nl : N := 10.
Definition tab : N := 9.
Definition bslash : N := 92.

(** [str.isspace] for one character; this is also the class [\s] of [re] on
    [str] patterns. *)
Definition is_space (c : N) : bool :=
  Utf8.between 9 13 c || Utf8.between 28 32 c || (c =? 0x85) || (c =? 0xA0)
  || (c =? 0x1680) || Utf8.between 0x2000 0x200A c || (c =? 0x2028)
  || (c =? 0x2029) || (c =? 0x202F) || (c =? 0x205F) || (c =? 0x3000).

Definition is_upper (c : N) : bool := Utf8.between 65 90 c.
Definition is_lower (c : N) : bool := Utf8.between 97 122 c.
Definition is_digit (c : N) : bool := Utf8.between 48 57 c.

(** The four characters outside ASCII that [re.IGNORECASE] relates to an
    ASCII letter: U+0130 and U+0131 (to i), U+017F (to s), U+212A (to k). *)
Definition fold_case (c : N) : N :=
  if is_upper c then c + 32
  else if (c =? 0x130) || (c =? 0x131) then 105
  else if c =? 0x17F then 115
  else if c =? 0x212A then 107
  else c.

(** [\w] on a [str] pattern: alphanumeric in the Unicode database, or the
    underscore.  The database is not part of the program: [alnum] stands for
    its answer on the code points the definition does not settle itself. *)
Definition is_word (alnum : N → bool) (c : N) : bool :=
  is_upper c || is_lower c || is_digit c || (c =? 95)
  || (c =? 0x130) || (c =? 0x131) || (c =? 0x17F) || (c =? 0x212A)
  || ((128 <=? c) && alnum c).

(** [s.strip()] *)
Fixpoint lstrip (s : str) : str :=
  match s with
  | c :: s' => if is_space c then lstrip s' else s
  | [] => []
  end.

Definition rstrip (s : str) : str := reverse (lstrip (reverse s)).
Definition strip (s : str) : str := rstrip (lstrip s).

(** [sep.join(l)] *)
Fixpoint join (sep : str) (l : list str) : str :=
  match l with
  | [] => []
  | [x] => x
  | x :: l' => x ++ sep ++ join sep l'
  end.

Fixpoint prefixb (p s : str) : bool :=
  match p, s with
  | [], _ => true
  | a :: p', b :: s' => (a =? b) && prefixb p' s'
  | _ :: _, [] => false
  end.

(** [p in s] *)
Fixpoint contains (p s : str) : bool :=
  prefixb p s || match s with [] => false | _ :: s' => contains p s' end.

(** [s.replace(old, new)] for a non-empty [old]: the occurrences are taken
    from the left and do not overlap. *)
Fixpoint replace_aux (old new : str) (s : str) (skip : nat) : str :=
  match s with
  | [] => []
  | c :: s' =>
    match skip with
    | S k => replace_aux old new s' k
    | O => if prefixb old s then new ++ replace_aux old new s' (pred (length old))
           else c :: replace_aux old new s' O
    end
  end.

Definition replace (old new s : str) : str := replace_aux old new s O.

(** [len(s.split())]: the number of maximal runs without white space. *)
Fixpoint count_words (inword : bool) (s : str) : nat :=
  match s with
  | [] => O
  | c :: s' =>
    if is_space c then count_words false s'
    else if inword then count_words true s' else S (count_words true s')
  end.

(** ** Regular expressions *)

Inductive citem :=
| Ch (c : N)          (** one character *)
| Rg (lo hi : N)      (** a range [lo-hi] *)
| WS.                 (** [\s] *)

Inductive cset :=
| AnyChar                    (** [.] under DOTALL *)
| NotNl                      (** [.] *)
| OneOf (l : list citem)     (** [[...]] *)
| NoneOf (l : list citem).   (** [[^...]] *)

Inductive regex :=
| Eps
| Lit (c : N)                       (** a character *)
| LitI (c : N)                      (** a character under [(?i)] *)
| Set1 (cs : cset)                  (** one character of a class *)
| Many (cs : cset) (lo : nat)       (** greedy [cs{lo,}]: [*] is 0, [+] is 1 *)
| Few (cs : cset)                   (** lazy [cs*?] *)
| Cat (r1 r2 : regex)
| Or (r1 r2 : regex)
| Group (n : nat) (r : regex)
| Bol                               (** [^] *)
| WordB (word : N → bool)           (** [\b], for a given class [\w] *)
| Ahead (r : regex).                (** [(?=r)] *)

Definition in_item (c : N) (i : citem) : bool :=
  match i with
  | Ch x => c =? x
  | Rg lo hi => (lo <=? c) && (c <=? hi)
  | WS => is_space c
  end.

Definition in_cset (cs : cset) (c : N) : bool :=
  match cs with
  | AnyChar => true
  | NotNl => negb (c =? nl)
  | OneOf l => existsb (in_item c) l
  | NoneOf l => negb (existsb (in_item c) l)
  end.

(** A literal run of the pattern. *)
Fixpoint lits (s : str) : regex :=
  match s with
  | [] => Eps
  | c :: s' => Cat (Lit c) (lits s')
  end.

Fixpoint litsI (s : str) : regex :=
  match s with
  | [] => Eps
  | c :: s' => Cat (LitI c) (litsI s')
  end.

Fixpoint cats (l : list regex) : regex :=
  match l with
  | [] => Eps
  | r :: l' => Cat r (cats l')
  end.

Abbreviation groups := (list (nat * str)).

(** What is left to match, and the groups closed so far. *)
Abbreviation outcome := (option (str * list (nat * str))).
Abbreviation kont :=
  (option N → str → list (nat * str) → option (str * list (nat * str))).

(** A match object: [span] is [m.group(0)], [caps] the numbered groups (the
    latest binding of a number comes first). *)
Record Match := { start : nat; span : str; caps : list (nat * str) }.

Fixpoint assoc (n : nat) (g : groups) : str :=
  match g with
  | [] => []
  | (i, v) :: g' => if Nat.eqb i n then v else assoc n g'
  end.

(** [m.group(n)] *)
Definition group (m : Match) (n : nat) : str :=
  match n with
  | O => span m
  | _ => assoc n (caps m)
  end.


Fixpoint many (p : N → bool) (lo : nat) (k : kont) (prev : option N) (s : str)
    (g : groups) {struct s} : outcome :=
  let stop := match lo with O => k prev s g | S _ => None end in
  match s with
  | c :: s' =>
    if p c then
      match many p (pred lo) k (Some c) s' g with
      | Some r => Some r
      | None => stop
      end
    else stop
  | [] => stop
  end.

Fixpoint few (p : N → bool) (k : kont) (prev : option N) (s : str)
    (g : groups) {struct s} : outcome :=
  match k prev s g with
  | Some r => Some r
  | None =>
    match s with
    | c :: s' => if p c then few p k (Some c) s' g else None
    | [] => None
    end
  end.

Definition one (p : N → bool) (k : kont) (s : str) (g : groups) : outcome :=
  match s with
  | c :: s' => if p c then k (Some c) s' g else None
  | [] => None
  end.

(** [rmatch r k prev s g]: match [r] at the front of [s] ([prev] is the
    character before it, if any), then go on with [k]; the first success
    in priority order is the answer. *)
Fixpoint rmatch (r : regex) (k : kont) (prev : option N) (s : str)
    (g : groups) {struct r} : outcome :=
  match r with
  | Eps => k prev s g
  | Lit c => one (N.eqb c) k s g
  | LitI c => one (fun x => fold_case x =? fold_case c) k s g
  | Set1 cs => one (in_cset cs) k s g
  | Many cs lo => many (in_cset cs) lo k prev s g
  | Few cs => few (in_cset cs) k prev s g
  | Cat r1 r2 => rmatch r1 (rmatch r2 k) prev s g
  | Or r1 r2 =>
    match rmatch r1 k prev s g with
    | Some x => Some x
    | None => rmatch r2 k prev s g
    end
  | Group n r1 =>
    rmatch r1 (fun prev' s' g' =>
                 k prev' s' ((n, take (length s - length s') s) :: g')) prev s g
  | Bol => match prev with None => k prev s g | Some _ => None end
  | WordB word =>
    if xorb (from_option word false prev) (from_option word false (head s))
    then k prev s g else None
  | Ahead r1 =>
    match rmatch r1 (fun _ _ g' => Some ([], g')) prev s g with
    | Some (_, g') => k prev s g'
    | None => None
    end
  end.

Definition accept : kont := fun _ s g => Some (s, g).

Definition match_here (r : regex) (prev : option N) (s : str) (pos : nat)
    : option Match :=
  match rmatch r accept prev s [] with
  | Some (rest, g) =>
    Some {| start := pos; span := take (length s - length rest) s; caps := g |}
  | None => None
  end.

Fixpoint search_from (r : regex) (prev : option N) (s : str) (pos : nat)
    : option Match :=
  match match_here r prev s pos with
  | Some m => Some m
  | None =>
    match s with
    | c :: s' => search_from r (Some c) s' (S pos)
    | [] => None
    end
  end.

(** [re.search(r, s)] *)
Definition re_search (r : regex) (s : str) : option Match :=
  search_from r None s O.

(** [re.finditer(r, s)]: the matches from left to right, each search
    starting where the previous match ended ([skip] characters are still
    inside it).  After an empty match the scan moves on by one character;
    no pattern of the program can match the empty string. *)
Fixpoint finditer_from (r : regex) (prev : option N) (s : str) (pos skip : nat)
    : list Match :=
  match skip with
  | S k =>
    match s with
    | c :: s' => finditer_from r (Some c) s' (S pos) k
    | [] => []
    end
  | O =>
    match match_here r prev s pos with
    | Some m =>
      m :: match s with
           | c :: s' => finditer_from r (Some c) s' (S pos) (pred (length (span m)))
           | [] => []
           end
    | None =>
      match s with
      | c :: s' => finditer_from r (Some c) s' (S pos) O
      | [] => []
      end
    end
  end.

Definition re_finditer (r : regex) (s : str) : list Match :=
  finditer_from r None s O O.

(** [re.sub(r, r'\1', s)]: every match is replaced by its group 1. *)
Fixpoint sub1_from (r : regex) (prev : option N) (s : str) (skip : nat) : str :=
  match skip with
  | S k =>
    match s with
    | c :: s' => sub1_from r (Some c) s' k
    | [] => []
    end
  | O =>
    match match_here r prev s O with
    | Some m =>
      group m 1 ++
      match s with
      | c :: s' =>
        match length (span m) with
        | O => c :: sub1_from r (Some c) s' O
        | S k => sub1_from r (Some c) s' k
        end
      | [] => []
      end
    | None =>
      match s with
      | c :: s' => c :: sub1_from r (Some c) s' O
      | [] => []
      end
    end
  end.

Definition re_sub1 (r : regex) (s : str) : str := sub1_from r None s O.



(** ** Structure Analyzer: [analyze_resume_structure] *)

(** The dictionary [structure]; its four keys are fixed. *)
Record Structure := {
  sections : list str;
  has_bullet_points : bool;
  has_tables : bool;
  indentation_style : str
}.

Definition common_sections : list str :=
  [u "EXPERIENCE"; u "EDUCATION"; u "SKILLS"; u "PROJECTS"; u "CERTIFICATIONS";
   u "SUMMARY"; u "OBJECTIVE"; u "CONTACT"; u "REFERENCES"; u "PUBLICATIONS"].

(** [r'(?i)\b' + section + r'\b'] *)
Definition section_name_re (alnum : N → bool) (section : str) : regex :=
  Cat (WordB (is_word alnum)) (Cat (litsI section) (WordB (is_word alnum))).

(** [r'[•●■◦○◘►▪▫▸▹◆]'] *)
Definition bullet_glyph_re : regex := Set1 (OneOf (Ch <$> u "•●■◦○◘►▪▫▸▹◆")).

(** [r'(.+)\n(.+)\n(.+)'] *)
Definition table_re : regex :=
  cats [Group 1 (Many NotNl 1); Lit nl; Group 2 (Many NotNl 1); Lit nl;
        Group 3 (Many NotNl 1)].

(** [r'\n\s{2,}'] *)
Definition indent_spaces_re : regex := Cat (Lit nl) (Many (OneOf [WS]) 2).

(** [r'\n\t'] *)
Definition indent_tabs_re : regex := Cat (Lit nl) (Lit tab).

Definition found (o : option Match) : bool :=
  match o with Some _ => true | None => false end.

(** [table_pattern and len(set(len(line.split()) for line in
    table_pattern[0])) <= 2]: [findall] is not empty exactly when [search]
    succeeds, and its first element holds the groups of the first match. *)
Definition looks_tabular (text : str) : bool :=
  match re_search table_re text with
  | Some m =>
    let counts := (fun n => count_words false (group m n)) <$> [1; 2; 3]%nat in
    bool_decide (length (remove_dups counts) ≤ 2)%nat
  | None => false
  end.

Section Analyzer.

Variable alnum : N → bool.

(** The loop over [common_sections], appending the names that match. *)
Fixpoint detect_sections (names : list str) (text : str) (acc : list str)
    : list str :=
  match names with
  | [] => acc
  | section :: names' =>
    if found (re_search (section_name_re alnum section) text)
    then detect_sections names' text (acc ++ [section])
    else detect_sections names' text acc
  end.

Definition analyze_resume_structure (text : str) : Structure :=
  {| sections := detect_sections common_sections text [];
     has_bullet_points := found (re_search bullet_glyph_re text);
     has_tables := looks_tabular text;
     indentation_style :=
       if found (re_search indent_spaces_re text) then u "spaces"
       else if found (re_search indent_tabs_re text) then u "tabs"
       else u "unknown" |}.

End Analyzer.

(** ** The world outside the program *)

Inductive exn_kind :=
| OSError               (** a file cannot be opened or created *)
| UnicodeDecodeError
| UnicodeEncodeError
| LibraryError.         (** raised by PyPDF2, the remote client, FPDF or
                            [subprocess]; every one derives from [Exception] *)

(** An exception of class [Exception] and its [str(e)]. *)
Record exn := Exn { kind : exn_kind; message : str }.

Inductive result (A : Type) :=
| Ret (a : A)
| Raise (e : exn).
Arguments Ret {A} a.
Arguments Raise {A} e.

(** One call on the FPDF object; the preview is the sequence of calls. *)
Inductive pdf_op :=
| AddPage
| SetAutoPageBreak (auto : bool) (margin : Z)
| SetMargins (left top right : Z)
| SetFont (family style : str) (size : Z)
| Cell (w h : Z) (txt : str) (border ln : Z) (align : str)
| MultiCell (w h : Z) (txt : str) (border : Z) (align : str)
| Ln (h : Z)
| HRule (x1 x2 : Z).    (** [pdf.line(x1, pdf.get_y(), x2, pdf.get_y())] *)

Record World := {
  dirs : gset (list N);                (** the directories that exist *)
  files : gmap (list N) (list N);      (** the regular files and their bytes *)
  listdir : list N → list (list N);    (** names in a directory, in the order
                                           the system lists them *)
  writable : list N → bool;            (** may this path be created or written *)
  environ : gmap (list N) (list N);    (** [os.environ] *)
  console : list (list N);             (** the lines printed so far *)
  sent : list (list N);                (** the instructions sent to the model *)
  unicode_alnum : N → bool;            (** the Unicode database, see [is_word] *)
  pdf_reader : list N → result (list (result (list N)));
      (** PyPDF2 on a file's bytes: the reader may fail, and so may
          [extract_text] on each page *)
  pdf_writer : list pdf_op → list N;   (** the bytes FPDF emits for a preview *)
  model : list N → list N → result (list N);
      (** the remote model: API key and instruction to [response.text] *)
  pdflatex : list (list N) → result (Z * list N)
      (** [subprocess.run(cmd, ...)]: return code and captured stderr; the
          files the compiler writes are its own and are not modelled *)
}.

Definition M (A : Type) : Type := World → result A * World.

Definition ret {A} (a : A) : M A := fun w => (Ret a, w).
Definition raise {A} (e : exn) : M A := fun w => (Raise e, w).

Definition bind {A B} (c : M A) (k : A → M B) : M B := fun w =>
  match c w with
  | (Ret a, w') => k a w'
  | (Raise e, w') => (Raise e, w')
  end.

(** [try: body / except Exception as e: handler(e)] *)
Definition try_except {A} (body : M A) (handler : exn → M A) : M A := fun w =>
  match body w with
  | (Ret a, w') => (Ret a, w')
  | (Raise e, w') => handler e w'
  end.

Declare Scope py_scope.
Delimit Scope py_scope with py.
Notation "x <- c ;; k" := (bind c (fun x => k))
  (at level 100, c at next level, right associativity) : py_scope.
Notation "c ;; k" := (bind c (fun _ => k))
  (at level 100, right associativity) : py_scope.
Open Scope py_scope.

Definition set_files (f : gmap (list N) (list N)) (w : World) : World :=
  {| dirs := dirs w; files := f; listdir := listdir w; writable := writable w;
     environ := environ w; console := console w; sent := sent w;
     unicode_alnum := unicode_alnum w; pdf_reader := pdf_reader w;
     pdf_writer := pdf_writer w; model := model w; pdflatex := pdflatex w |}.

Definition set_dirs (d : gset (list N)) (w : World) : World :=
  {| dirs := d; files := files w; listdir := listdir w; writable := writable w;
     environ := environ w; console := console w; sent := sent w;
     unicode_alnum := unicode_alnum w; pdf_reader := pdf_reader w;
     pdf_writer := pdf_writer w; model := model w; pdflatex := pdflatex w |}.

Definition set_console (c : list (list N)) (w : World) : World :=
  {| dirs := dirs w; files := files w; listdir := listdir w; writable := writable w;
     environ := environ w; console := c; sent := sent w;
     unicode_alnum := unicode_alnum w; pdf_reader := pdf_reader w;
     pdf_writer := pdf_writer w; model := model w; pdflatex := pdflatex w |}.

Definition set_sent (s : list (list N)) (w : World) : World :=
  {| dirs := dirs w; files := files w; listdir := listdir w; writable := writable w;
     environ := environ w; console := console w; sent := s;
     unicode_alnum := unicode_alnum w; pdf_reader := pdf_reader w;
     pdf_writer := pdf_writer w; model := model w; pdflatex := pdflatex w |}.

(** [print(line)] *)
Definition print (line : str) : M unit := fun w =>
  (Ret tt, set_console (console w ++ [line]) w).

(** [Path(p).exists()] *)
Definition path_exists (p : str) : M bool := fun w =>
  (Ret (bool_decide (p ∈ dirs w) || bool_decide (is_Some (files w !! p))), w).

(** [os.makedirs(p)] *)
Definition makedirs (p : str) : M unit := fun w =>
  if writable w p then (Ret tt, set_dirs ({[p]} ∪ dirs w) w)
  else (Raise (Exn OSError p), w).

Fixpoint ends_with (suffix s : str) : bool :=
  bool_decide (s = suffix) || match s with [] => false | _ :: s' => ends_with suffix s' end.

(** [list(Path(folder).glob("*.pdf"))], as names inside [folder] *)
Definition glob_pdf (folder : str) : M (list str) := fun w =>
  (Ret (filter (fun name => ends_with (u ".pdf") name = true) (listdir w folder)), w).

(** Text mode reads translate [\r\n] and a lone [\r] to [\n]. *)
Fixpoint universal_newlines (s : str) : str :=
  match s with
  | 13 :: s' =>
    nl :: match s' with
          | 10 :: s'' => universal_newlines s''
          | _ => universal_newlines s'
          end
  | c :: s' => c :: universal_newlines s'
  | [] => []
  end.

Inductive encoding := utf_8 | latin_1.

Definition decode (enc : encoding) (b : bytes) : option str :=
  match enc with
  | utf_8 => Utf8.decode b
  | latin_1 => Some b
  end.

(** [open(p, "rb")] followed by reading all of it *)
Definition read_bytes (p : str) : M bytes := fun w =>
  match files w !! p with
  | Some b => (Ret b, w)
  | None => (Raise (Exn OSError p), w)
  end.

(** [with open(p, "r", encoding=enc) as file: file.read()] *)
Definition read_text (p : str) (enc : encoding) : M str :=
  b <- read_bytes p ;;
  match decode enc b with
  | Some s => ret (universal_newlines s)
  | None => raise (Exn UnicodeDecodeError (u "invalid start byte"))
  end.

(** [with open(p, "w", encoding="utf-8") as f: f.write(content)]: opening
    truncates the file; a text that cannot be encoded then leaves it empty. *)
Definition write_text (p : str) (content : str) : M unit := fun w =>
  if writable w p then
    match Utf8.encode content with
    | Some b => (Ret tt, set_files (<[p := b]> (files w)) w)
    | None => (Raise (Exn UnicodeEncodeError (u "surrogates not allowed")),
               set_files (<[p := []]> (files w)) w)
    end
  else (Raise (Exn OSError p), w).

(** [os.environ.get(name)] *)
Definition environ_get (name : str) : M (option str) := fun w =>
  (Ret (environ w !! name), w).

(** ** Prompt Builder and Optimization Client: [optimize_resume_with_gemini] *)

(** The instruction literal (lines 179-324), cut at its seven replacement
    fields; every piece is the text of the source, line breaks and leading
    blanks included. *)

(** up to the job description *)
Definition prompt_job : str := u "
        I need to optimize a resume for this job description and convert it to LaTeX format.

        JOB DESCRIPTION:
        ".

(** up to the resume text *)
Definition prompt_resume : str := u "

        CURRENT RESUME CONTENT:
        ".

(** up to the additional details *)
Definition prompt_details : str := u "

        ADDITIONAL DETAILS ABOUT THE PERSON (incorporate if relevant):
        ".

(** up to the detected sections *)
Definition prompt_sections : str := u "

        RESUME STRUCTURE ANALYSIS:
        - Sections detected: ".

(** up to the bullet flag *)
Definition prompt_bullets : str := u "
        - Uses bullet points: ".

(** up to the table flag *)
Definition prompt_tables : str := u "
        - Contains tables: ".

(** up to the indentation style *)
Definition prompt_indent : str := u "
        - Indentation style: ".

(** the template and the directives that end the instruction *)
Definition prompt_template : str := u "

        Convert this resume to the following LaTeX format and structure:

\begin{document}

%----------HEADING----------
% \begin{tabular*}{\textwidth}{l@{\extracolsep{\fill}}r}
%   \textbf{\href{http://sourabhbajaj.com/}{\Large Sourabh Bajaj}} & Email : \href{mailto:sourabh@sourabhbajaj.com}{sourabh@sourabhbajaj.com}\\
%   \href{http://sourabhbajaj.com/}{http://www.sourabhbajaj.com} & Mobile : +1-123-456-7890 \\
% \end{tabular*}

\begin{center}
    \textbf{\Huge \scshape Jake Ryan} \\ \vspace{1pt}
    \small 123-456-7890 $|$ \href{mailto:x@x.com}{\underline{jake@su.edu}} $|$ 
    \href{https://linkedin.com/in/...}{\underline{linkedin.com/in/jake}} $|$
    \href{https://github.com/...}{\underline{github.com/jake}}
\end{center}


%-----------EDUCATION-----------
\section{Education}
  \resumeSubHeadingListStart
    \resumeSubheading
      {Southwestern University}{Georgetown, TX}
      {Bachelor of Arts in Computer Science, Minor in Business}{Aug. 2018 -- May 2021}
    \resumeSubheading
      {Blinn College}{Bryan, TX}
      {Associate's in Liberal Arts}{Aug. 2014 -- May 2018}
  \resumeSubHeadingListEnd


%-----------EXPERIENCE-----------
\section{Experience}
  \resumeSubHeadingListStart

    \resumeSubheading
      {Undergraduate Research Assistant}{June 2020 -- Present}
      {Texas A\&M University}{College Station, TX}
      \resumeItemListStart
        \resumeItem{Developed a REST API using FastAPI and PostgreSQL to store data from learning management systems}
        \resumeItem{Developed a full-stack web application using Flask, React, PostgreSQL and Docker to analyze GitHub data}
        \resumeItem{Explored ways to visualize GitHub collaboration in a classroom setting}
      \resumeItemListEnd
      
% -----------Multiple Positions Heading-----------
%    \resumeSubSubheading
%     {Software Engineer I}{Oct 2014 - Sep 2016}
%     \resumeItemListStart
%        \resumeItem{Apache Beam}
%          {Apache Beam is a unified model for defining both batch and streaming data-parallel processing pipelines}
%     \resumeItemListEnd
%    \resumeSubHeadingListEnd
%-------------------------------------------

    \resumeSubheading
      {Information Technology Support Specialist}{Sep. 2018 -- Present}
      {Southwestern University}{Georgetown, TX}
      \resumeItemListStart
        \resumeItem{Communicate with managers to set up campus computers used on campus}
        \resumeItem{Assess and troubleshoot computer problems brought by students, faculty and staff}
        \resumeItem{Maintain upkeep of computers, classroom equipment, and 200 printers across campus}
    \resumeItemListEnd

    \resumeSubheading
      {Artificial Intelligence Research Assistant}{May 2019 -- July 2019}
      {Southwestern University}{Georgetown, TX}
      \resumeItemListStart
        \resumeItem{Explored methods to generate video game dungeons based off of \emph{The Legend of Zelda}}
        \resumeItem{Developed a game in Java to test the generated dungeons}
        \resumeItem{Contributed 50K+ lines of code to an established codebase via Git}
        \resumeItem{Conducted  a human subject study to determine which video game dungeon generation technique is enjoyable}
        \resumeItem{Wrote an 8-page paper and gave multiple presentations on-campus}
        \resumeItem{Presented virtually to the World Conference on Computational Intelligence}
      \resumeItemListEnd

  \resumeSubHeadingListEnd


%-----------PROJECTS-----------
\section{Projects}
    \resumeSubHeadingListStart
      \resumeProjectHeading
          {\textbf{Gitlytics} $|$ \emph{Python, Flask, React, PostgreSQL, Docker}}{June 2020 -- Present}
          \resumeItemListStart
            \resumeItem{Developed a full-stack web application using with Flask serving a REST API with React as the frontend}
            \resumeItem{Implemented GitHub OAuth to get data from user’s repositories}
            \resumeItem{Visualized GitHub data to show collaboration}
            \resumeItem{Used Celery and Redis for asynchronous tasks}
          \resumeItemListEnd
      \resumeProjectHeading
          {\textbf{Simple Paintball} $|$ \emph{Spigot API, Java, Maven, TravisCI, Git}}{May 2018 -- May 2020}
          \resumeItemListStart
            \resumeItem{Developed a Minecraft server plugin to entertain kids during free time for a previous job}
            \resumeItem{Published plugin to websites gaining 2K+ downloads and an average 4.5/5-star review}
            \resumeItem{Implemented continuous delivery using TravisCI to build the plugin upon new a release}
            \resumeItem{Collaborated with Minecraft server administrators to suggest features and get feedback about the plugin}
          \resumeItemListEnd
    \resumeSubHeadingListEnd



%
%-----------PROGRAMMING SKILLS-----------
\section{Technical Skills}
 \begin{itemize}[leftmargin=0.15in, label={}]
    \small{\item{
     \textbf{Languages}{: Java, Python, C/C++, SQL (Postgres), JavaScript, HTML/CSS, R} \\
     \textbf{Frameworks}{: React, Node.js, Flask, JUnit, WordPress, Material-UI, FastAPI} \\
     \textbf{Developer Tools}{: Git, Docker, TravisCI, Google Cloud Platform, VS Code, Visual Studio, PyCharm, IntelliJ, Eclipse} \\
     \textbf{Libraries}{: pandas, NumPy, Matplotlib}
    }}
 \end{itemize}


%-------------------------------------------
\end{document}

        Fill in all the sections with the optimized content from the original resume. 
        Make sure to:
        1. Format the resume to match the exact LaTeX structure shown above
        2. Extract and optimize the content from the original resume
        3. Match keywords and phrases from the job description
        4. Highlight skills and experiences that align with the job requirements
        5. Focus on achievements and metrics relevant to the position
        6. Use powerful action verbs and quantifiable achievements
        7. Include ALL sections from the LaTeX template, filling them with appropriate content

        Return ONLY the LaTeX code for the resume. Do not include any explanations or markdown.
        ".
(** [r'^([A-Za-z\s]+)'] *)
Definition leading_name_re : regex :=
  Cat Bol (Group 1 (Many (OneOf [Rg 65 90; Rg 97 122; WS]) 1)).

Definition alnum_items : list citem := [Rg 97 122; Rg 65 90; Rg 48 57].

(** [r'([a-zA-Z0-9_.+-]+@[a-zA-Z0-9-]+\.[a-zA-Z0-9-.]+)'] *)
Definition email_re : regex :=
  Group 1 (cats [Many (OneOf (alnum_items ++ (Ch <$> u "_.+-"))) 1; Lit 64;
                 Many (OneOf (alnum_items ++ [Ch 45])) 1; Lit 46;
                 Many (OneOf (alnum_items ++ (Ch <$> u "-."))) 1]).

(** [r'linkedin\.com/in/([a-zA-Z0-9_-]+)'] *)
Definition linkedin_re : regex :=
  Cat (lits (u "linkedin.com/in/"))
      (Group 1 (Many (OneOf (alnum_items ++ (Ch <$> u "_-"))) 1)).

(** [r'github\.com/([a-zA-Z0-9_-]+)'] *)
Definition github_re : regex :=
  Cat (lits (u "github.com/"))
      (Group 1 (Many (OneOf (alnum_items ++ (Ch <$> u "_-"))) 1)).

(** Lines 165-166: [name_match.group(1).strip() if name_match else "Name"] *)
Definition leading_name (resume_text : str) : str :=
  match re_search leading_name_re resume_text with
  | Some name_match => strip (group name_match 1)
  | None => u "Name"
  end.

Definition yes_no (b : bool) : str := if b then u "Yes" else u "No".

(** Lines 161-324.  [name], [email], [linkedin] and [github] are computed
    and then not used by the literal. *)
Definition build_prompt (resume_text : str) (resume_structure : Structure)
    (job_description additional_details : str) : str :=
  let sections_str := join (u ", ") (sections resume_structure) in
  let name := leading_name resume_text in
  let email :=
    match re_search email_re resume_text with
    | Some email_match => group email_match 1
    | None => u "email@example.com"
    end in
  let linkedin :=
    match re_search linkedin_re resume_text with
    | Some linkedin_match => group linkedin_match 0
    | None => u "linkedin.com/in/username"
    end in
  let github :=
    match re_search github_re resume_text with
    | Some github_match => group github_match 0
    | None => u "github.com/username"
    end in
  prompt_job ++ job_description
  ++ prompt_resume ++ resume_text
  ++ prompt_details ++ additional_details
  ++ prompt_sections ++ sections_str
  ++ prompt_bullets ++ yes_no (has_bullet_points resume_structure)
  ++ prompt_tables ++ yes_no (has_tables resume_structure)
  ++ prompt_indent ++ indentation_style resume_structure
  ++ prompt_template.

(** [model.generate_content(prompt)] and [response.text]: the one network
    call of the program. *)
Definition generate_content (api_key prompt : str) : M str := fun w =>
  (model w api_key prompt, set_sent (sent w ++ [prompt]) w).

Definition optimize_resume_with_gemini (resume_text : str)
    (resume_structure : Structure) (job_description additional_details : str)
    : M (option str) :=
  try_except
    (api_key <- environ_get (u "GEMINI_API_KEY") ;;
     match api_key with
     | None | Some [] =>
       print (u "Error: GEMINI_API_KEY not found in environment variables.") ;;
       print (u "Please add your Gemini API key using the Secrets tool.") ;;
       ret None
     | Some key =>
       let prompt :=
         build_prompt resume_text resume_structure job_description
                      additional_details in
       response <- generate_content key prompt ;;
       ret (Some response)
     end)
    (fun e => print (u "Error with Google Gemini API: " ++ message e) ;; ret None).

(** ** Document Extractor: [extract_from_pdf] *)

(** [for page in reader.pages: text += page.extract_text() + "\n"] *)
Fixpoint read_pages (pages : list (result str)) (text : str) : result str :=
  match pages with
  | [] => Ret text
  | Ret t :: pages' => read_pages pages' (text ++ t ++ [nl])
  | Raise e :: _ => Raise e
  end.

Definition lift {A} (r : World → result A) : M A := fun w => (r w, w).

Definition extract_from_pdf (pdf_path : str) : M (option str * option Structure) :=
  try_except
    (file <- read_bytes pdf_path ;;
     pages <- lift (fun w => pdf_reader w file) ;;
     text <- lift (fun _ => read_pages pages []) ;;
     alnum <- lift (fun w => Ret (unicode_alnum w)) ;;
     let structure := analyze_resume_structure alnum text in
     ret (Some text, Some structure))
    (fun e => print (u "Error extracting text from PDF: " ++ message e) ;;
              ret (None, None)).

(** ** Layout Renderer: [create_pdf_resume] *)

(** The core fonts of FPDF ("Arial" is one) are encoded in latin-1: a text
    with a character above U+00FF makes the library raise, in [cell] and
    [multi_cell] (fpdf2) or when [output] emits the pages (PyFPDF); in both
    cases inside the [try] and before a byte of the preview is written. *)
Definition latin1 (txt : str) : bool := forallb (fun c => c <? 256) txt.

(** The FPDF object under construction, or the exception that ended it. *)
Definition drawing : Type := list pdf_op → result (list pdf_op).

Definition emit (o : pdf_op) : drawing := fun pdf => Ret (pdf ++ [o]).

Definition text_op (txt : str) (o : pdf_op) : drawing := fun pdf =>
  if latin1 txt then Ret (pdf ++ [o])
  else Raise (Exn UnicodeEncodeError (u "'latin-1' codec can't encode character")).

Definition and_then (d1 d2 : drawing) : drawing := fun pdf =>
  match d1 pdf with
  | Ret pdf' => d2 pdf'
  | Raise e => Raise e
  end.
Infix ">>" := and_then (at level 61, left associativity) : py_scope.

Definition skip : drawing := fun pdf => Ret pdf.

Fixpoint for_each {A} (l : list A) (body : A → drawing) : drawing :=
  match l with
  | [] => skip
  | x :: l' => body x >> for_each l' body
  end.

Definition set_font (family style : str) (size : Z) : drawing :=
  emit (SetFont family style size).
Definition cell (w h : Z) (txt : str) (border ln : Z) (align : str) : drawing :=
  text_op txt (Cell w h txt border ln align).
Definition multi_cell (w h : Z) (txt : str) (border : Z) (align : str) : drawing :=
  text_op txt (MultiCell w h txt border align).
Definition ln (h : Z) : drawing := emit (Ln h).

(** A group in braces: an opening brace, group [n] holding at least [lo]
    characters other than the closing brace, and the closing brace. *)
Definition braced (n : nat) (lo : nat) : regex :=
  cats [Lit 123; Group n (Many (NoneOf [Ch 125]) lo); Lit 125].

(** [r'\\textbf{\\Huge \\scshape ([^}]+)}'] *)
Definition name_re : regex :=
  cats [lits (u "\textbf{\Huge \scshape "); Group 1 (Many (NoneOf [Ch 125]) 1);
        Lit 125].

(** [r'\\small ([^\n]+)'] *)
Definition contact_re : regex :=
  Cat (lits (u "\small ")) (Group 1 (Many (NoneOf [Ch nl]) 1)).

(** [r'\\href{[^}]+}{\\underline{([^}]+)}}'] *)
Definition href_re : regex :=
  cats [lits (u "\href{"); Many (NoneOf [Ch 125]) 1; lits (u "}{\underline{");
        Group 1 (Many (NoneOf [Ch 125]) 1); lits (u "}}")].

(** [r'\\section{([^}]+)}(.*?)(?=\\section{|\\end{document})'] with
    [re.DOTALL] *)
Definition section_re : regex :=
  cats [lits (u "\section{"); Group 1 (Many (NoneOf [Ch 125]) 1); Lit 125;
        Group 2 (Few AnyChar);
        Ahead (Or (lits (u "\section{")) (lits (u "\end{document}")))].

(** Line 396: [\\resumeSubheading\s*] and four braced groups, each
    any run without a closing brace *)
Definition subheading_re : regex :=
  cats [lits (u "\resumeSubheading"); Many (OneOf [WS]) 0;
        braced 1 0; braced 2 0; braced 3 0; braced 4 0].

(** Line 415: [\\resumeProjectHeading\s*] and two such braced groups *)
Definition project_re : regex :=
  cats [lits (u "\resumeProjectHeading"); Many (OneOf [WS]) 0;
        braced 1 0; braced 2 0].

(** Lines 421-422: [\\textbf] and [\\emph], each with one braced group *)
Definition textbf_re : regex := Cat (lits (u "\textbf")) (braced 1 0).
Definition emph_re : regex := Cat (lits (u "\emph")) (braced 1 0).

(** Line 431: [\\resumeItem] with one braced group *)
Definition bullet_re : regex := Cat (lits (u "\resumeItem")) (braced 1 0).

(** Line 442: [\\textbf], a braced group, then [{{: ], a group without
    closing brace or backslash, and [}}] *)
Definition skills_re : regex :=
  cats [lits (u "\textbf"); braced 1 0; lits (u "{{: ");
        Group 2 (Many (NoneOf [Ch 125; Ch bslash]) 0); lits (u "}}")].

Definition header_font : str := u "Arial".
Definition body_font : str := u "Arial".

(** Lines 397-412, one sub-heading block *)
Definition draw_subheading (subheading_match : Match) : drawing :=
  let org := group subheading_match 1 in
  let location := group subheading_match 2 in
  let title := group subheading_match 3 in
  let date := group subheading_match 4 in
  set_font body_font (u "B") 11
  >> cell 120 6 org 0 0 (u "L")
  >> cell 60 6 location 0 1 (u "R")
  >> set_font body_font (u "I") 10
  >> cell 120 6 title 0 0 (u "L")
  >> cell 60 6 date 0 1 (u "R")
  >> ln 2.

(** Lines 416-428, one project heading *)
Definition draw_project (project_match : Match) : drawing :=
  let project_info := group project_match 1 in
  let project_date := group project_match 2 in
  let project_info := re_sub1 textbf_re project_info in
  let project_info := re_sub1 emph_re project_info in
  set_font body_font (u "B") 11
  >> cell 120 6 project_info 0 0 (u "L")
  >> cell 60 6 project_date 0 1 (u "R")
  >> ln 2.

(** Lines 432-438, one bullet item *)
Definition draw_bullet (bullet_match : Match) : drawing :=
  let bullet_text := group bullet_match 1 in
  set_font body_font (u "") 10
  >> cell 5 6 (u "•") 0 0 (u "L")
  >> multi_cell 175 6 bullet_text 0 (u "L").

(** Lines 443-450, one category of the skills section *)
Definition draw_skill (skills_match : Match) : drawing :=
  let skill_category := group skills_match 1 in
  let skill_list := group skills_match 2 in
  set_font body_font (u "B") 10
  >> cell 30 6 (skill_category ++ u ":") 0 0 (u "L")
  >> set_font body_font (u "") 10
  >> multi_cell 150 6 skill_list 0 (u "L").

(** Lines 382-452, one section *)
Definition draw_section (match_ : Match) : drawing :=
  let section_title := group match_ 1 in
  let section_content := group match_ 2 in
  set_font header_font (u "B") 14
  >> cell 0 10 section_title 0 1 (u "L")
  >> ln 1
  >> emit (HRule 15 195)
  >> ln 4
  >> for_each (re_finditer subheading_re section_content) draw_subheading
  >> for_each (re_finditer project_re section_content) draw_project
  >> for_each (re_finditer bullet_re section_content) draw_bullet
  >> (if bool_decide (section_title = u "Technical Skills")
      then for_each (re_finditer skills_re section_content) draw_skill
      else skip)
  >> ln 5.

(** Lines 362-363 *)
Definition header_name (content : str) : str :=
  match re_search name_re content with
  | Some name_match => group name_match 1
  | None => u "Name"
  end.

(** Lines 366-369 *)
Definition header_contact (content : str) : str :=
  let contact :=
    match re_search contact_re content with
    | Some contact_match => group contact_match 1
    | None => []
    end in
  let contact := re_sub1 href_re contact in
  replace (u "$|$") (u "|") contact.

(** Lines 349-452: the calls on the FPDF object, from its creation on *)
Definition draw_resume (content : str) : drawing :=
  emit AddPage
  >> emit (SetAutoPageBreak true 15)
  >> emit (SetMargins 15 15 15)
  >> set_font header_font (u "B") 16
  >> cell 0 10 (header_name content) 0 1 (u "C")
  >> set_font body_font (u "") 10
  >> cell 0 6 (header_contact content) 0 1 (u "C")
  >> ln 4
  >> for_each (re_finditer section_re content) draw_section.

(** [pdf.output(path)] *)
Definition pdf_output (pdf : list pdf_op) (path : str) : M unit := fun w =>
  if writable w path
  then (Ret tt, set_files (<[path := pdf_writer w pdf]> (files w)) w)
  else (Raise (Exn OSError path), w).

Definition create_pdf_resume (content output_path : str) : M (option str) :=
  try_except
    ((if negb (contains (u ".tex") output_path)
      then
        let tex_path := replace (u ".pdf") (u ".tex") output_path in
        write_text tex_path content
      else ret tt) ;;
     pdf <- lift (fun _ => draw_resume content []) ;;
     pdf_output pdf output_path ;;
     ret (Some output_path))
    (fun e => print (u "Error creating PDF: " ++ message e) ;; ret None).

(** ** Orchestrator: [main] *)

(** [name.rfind(c)] *)
Fixpoint rfind (c : N) (s : str) : option nat :=
  match s with
  | [] => None
  | x :: s' =>
    match rfind c s' with
    | Some i => Some (S i)
    | None => if x =? c then Some O else None
    end
  end.

(** [Path.stem]: the name without its last suffix; a dot that leads or ends
    the name starts no suffix. *)
Definition stem (name : str) : str :=
  match rfind 46 name with
  | Some i =>
    if bool_decide (0 < i)%nat && bool_decide (i < length name - 1)%nat
    then take i name else name
  | None => name
  end.

(** [folder / name], as [str] shows it *)
Definition joinpath (folder name : str) : str := folder ++ u "/" ++ name.

(** [subprocess.run(cmd, capture_output=True, text=True)] *)
Definition subprocess_run (cmd : list str) : M (Z * str) :=
  lift (fun w => pdflatex w cmd).

(** Lines 36-51 *)
Definition load_additional_details : M str :=
  let additional_details_path := u "additional_details.txt" in
  present <- path_exists additional_details_path ;;
  if present then
    fun w =>
      match read_text additional_details_path utf_8 w with
      | (Raise (Exn UnicodeDecodeError _), w') =>
        (additional_details <- read_text additional_details_path latin_1 ;;
         print (u "Found additional details file (using alternate encoding). This information will be incorporated into the resume.") ;;
         ret additional_details) w'
      | (Raise e, w') => (Raise e, w')
      | (Ret additional_details, w') =>
        (print (u "Found additional details file. This information will be incorporated into the resume.") ;;
         ret additional_details) w'
      end
  else
    print (u "No 'additional_details.txt' file found. Only using existing resume content.") ;;
    ret [].

(** Lines 81-94 *)
Definition compile_latex (output_folder tex_path stem_ : str) : M unit :=
  try_except
    (print (u "Attempting to compile LaTeX file to PDF...") ;;
     let cmd := [u "pdflatex"; u "-output-directory"; output_folder; tex_path] in
     result <- subprocess_run cmd ;;
     if bool_decide (fst result = 0%Z) then
       print (u "LaTeX compilation successful. PDF created at: " ++ output_folder
              ++ u "/optimized_" ++ stem_ ++ u ".pdf")
     else
       print (u "LaTeX compilation had issues. Using basic PDF version instead.") ;;
       print (u "Error details: " ++ snd result))
    (fun e =>
       print (u "Could not compile LaTeX: " ++ message e) ;;
       print (u "Using basic PDF version instead.")).

Definition show_path (p : option str) : str :=
  match p with Some s => s | None => u "None" end.

(** Lines 69-94: the reply is saved, drawn and compiled. *)
Definition save_and_render (output_folder resume_name optimized_resume : str)
    : M unit :=
  let tex_path :=
    joinpath output_folder (u "optimized_" ++ stem resume_name ++ u ".tex") in
  write_text tex_path optimized_resume ;;
  print (u "Optimized resume saved to: " ++ tex_path) ;;
  print (u "Resume optimization complete!") ;;
  pdf_path <- create_pdf_resume optimized_resume
                (joinpath output_folder
                   (u "optimized_" ++ stem resume_name ++ u ".pdf")) ;;
  print (u "PDF preview created at: " ++ show_path pdf_path) ;;
  compile_latex output_folder tex_path (stem resume_name).

Definition main : M unit :=
  let resume_folder := u "resume" in
  let output_folder := u "newresume" in
  there <- path_exists resume_folder ;;
  if negb there then
    makedirs resume_folder ;;
    print (u "Created '" ++ resume_folder ++ u "' folder. Please place your resume PDF there.")
  else
  there <- path_exists output_folder ;;
  (if negb there then makedirs output_folder else ret tt) ;;
  pdf_files <- glob_pdf resume_folder ;;
  match pdf_files with
  | [] => print (u "No PDF resume found in the 'resume' folder. Please add a resume.")
  | resume_name :: _ =>
    let resume_path := joinpath resume_folder resume_name in
    print (u "Found resume: " ++ resume_name) ;;
    let job_desc_path := u "job_description.txt" in
    there <- path_exists job_desc_path ;;
    if negb there then
      print (u "Job description file 'job_description.txt' not found. Please create this file with the job requirements.")
    else
    additional_details <- load_additional_details ;;
    extracted <- extract_from_pdf resume_path ;;
    match extracted with
    | (None, _) | (Some [], _) | (_, None) =>
      print (u "Failed to extract text from the resume.")
    | (Some resume_text, Some resume_structure) =>
      job_description <- read_text job_desc_path utf_8 ;;
      optimized <- optimize_resume_with_gemini resume_text resume_structure
                     job_description additional_details ;;
      match optimized with
      | None | Some [] => print (u "Failed to optimize the resume.")
      | Some optimized_resume =>
        save_and_render output_folder resume_name optimized_resume
      end
    end
  end.

(** ** Notions used in the statements *)

(** [p] occurs in [s] as a contiguous block. *)
Definition occurs (p s : str) : Prop := ∃ a b, s = a ++ p ++ b.

(** Two texts of equal length whose characters agree up to case. *)
Definition same_ignoring_case (a b : str) : Prop :=
  Forall2 (fun x y => fold_case x = fold_case y) a b.

Definition word_char (alnum : N → bool) (o : option N) : bool :=
  from_option (is_word alnum) false o.

(** [name] occurs in [text] as a whole word, case ignored: an occurrence
    that no word character precedes or follows. *)
Definition whole_word (alnum : N → bool) (name text : str) : Prop :=
  ∃ a m b, text = a ++ m ++ b ∧ same_ignoring_case m name
           ∧ word_char alnum (last a) = false
           ∧ word_char alnum (head b) = false.

(** The character before the position reached after reading [m]. *)
Definition prev_after (prev : option N) (m : str) : option N :=
  match last m with Some c => Some c | None => prev end.



Definition returned {A} (r : result A * World) : option A :=
  match fst r with Ret a => Some a | Raise _ => None end.

Definition raised {A} (r : result A * World) : option exn_kind :=
  match fst r with Ret _ => None | Raise e => Some (kind e) end.

(** The longest prefix of [s] whose characters all satisfy [p]. *)
Fixpoint run_of (p : N → bool) (s : str) : str :=
  match s with
  | c :: s' => if p c then c :: run_of p s' else []
  | [] => []
  end.

(** A letter of [A-Za-z] or white space: the class of line 165. *)
Definition name_char (c : N) : bool := is_upper c || is_lower c || is_space c.

(** Some line break of [text] is followed by two white-space characters. *)
Definition whitespace_after_break (text : str) : Prop :=
  ∃ a c1 c2 b, text = a ++ nl :: c1 :: c2 :: b
               ∧ is_space c1 = true ∧ is_space c2 = true.

(** A non-empty line: no line break inside. *)
Definition line (l : str) : Prop := l ≠ [] ∧ nl ∉ l.


(** Some section of the reply holds a [\resumeItem]. *)
Definition has_bullet_item (content : str) : bool :=
  existsb (fun m => match re_finditer bullet_re (group m 2) with
                    | [] => false
                    | _ :: _ => true
                    end)
          (re_finditer section_re content).

(** The paths under the output folder. *)
Definition in_output_folder (p : str) : Prop := ∃ name, p = u "newresume/" ++ name.

(** [c] leaves every file outside the output folder as it was. *)
Definition confined {A} (c : M A) : Prop :=
  ∀ w p, ¬ in_output_folder p → files (snd (c w)) !! p = files w !! p.

(** [c] sends at most [n] instructions to the model. *)
Definition calls (n : nat) {A} (c : M A) : Prop :=
  ∀ w, ∃ l, sent (snd (c w)) = sent w ++ l ∧ (length l ≤ n)%nat.

(** A drawing that goes through whatever has been drawn before it. *)
Definition succeeds (d : drawing) : Prop := ∀ pdf, ∃ pdf', d pdf = Ret pdf'.

(** The groups of a match hold characters with the property [P] only. *)
Definition groups_in (P : N → Prop) (g : groups) : Prop :=
  Forall (fun p => Forall P (snd p)) g.

(** ** Concrete inputs *)

(** A reply that follows the template: one header, one section with one
    sub-heading block and one bullet item. *)
Definition template_reply : str := u "\begin{document}

\begin{center}
    \textbf{\Huge \scshape Jane Doe} \\ \vspace{1pt}
    \small 123-456-7890 $|$ \href{mailto:x@x.com}{\underline{jane@x.com}}
\end{center}

\section{Experience}
  \resumeSubHeadingListStart
    \resumeSubheading
      {Acme}{Georgetown, TX}
      {Engineer}{2020}
      \resumeItemListStart
        \resumeItem{Did a thing well}
      \resumeItemListEnd
  \resumeSubHeadingListEnd

\end{document}
".

Definition page_one : str := u "Jane Doe
jane@x.com
EXPERIENCE
• Did a thing".

(** A working directory with one résumé, a job description, a credential,
    a model that answers [template_reply] and no LaTeX compiler. *)
Definition demo_world : World := {|
  dirs := {[ u "resume"; u "newresume" ]};
  files := {[ u "resume/cv.pdf" := u "%PDF-1.4";
              u "job_description.txt" := u "Engineer wanted" ]};
  listdir := fun d => if bool_decide (d = u "resume") then [u "cv.pdf"] else [];
  writable := fun _ => true;
  environ := {[ u "GEMINI_API_KEY" := u "secret" ]};
  console := [];
  sent := [];
  unicode_alnum := fun _ => false;
  pdf_reader := fun _ => Ret [Ret page_one];
  pdf_writer := fun _ => u "%PDF-1.3";
  model := fun _ _ => Ret template_reply;
  pdflatex := fun _ => Raise (Exn OSError (u "No such file or directory: 'pdflatex'"))
|}.

(** The same directory, the job description being the single byte 0xFF. *)
Definition latin_job_world : World :=
  set_files (<[u "job_description.txt" := [255]]> (files demo_world)) demo_world.

(** The same directory, the résumé having two pages, "a" and "b". *)
Definition two_page_world : World := {|
  dirs := dirs demo_world; files := files demo_world;
  listdir := listdir demo_world; writable := writable demo_world;
  environ := environ demo_world; console := []; sent := [];
  unicode_alnum := unicode_alnum demo_world;
  pdf_reader := fun _ => Ret [Ret (u "a"); Ret (u "b")];
  pdf_writer := pdf_writer demo_world; model := model demo_world;
  pdflatex := pdflatex demo_world
|}.

(** The same directory without the credential. *)
Definition keyless_world : World := {|
  dirs := dirs demo_world; files := files demo_world;
  listdir := listdir demo_world; writable := writable demo_world;
  environ := ∅; console := []; sent := [];
  unicode_alnum := unicode_alnum demo_world;
  pdf_reader := pdf_reader demo_world;
  pdf_writer := pdf_writer demo_world; model := model demo_world;
  pdflatex := pdflatex demo_world
|}.

(** A line break, two tabs: indentation by tabs only. *)
Definition tab_indented : str := u "a" ++ [nl; tab; tab] ++ u "b".


(** The demo directory with an empty credential. *)
Definition empty_key_world : World := {|
  dirs := dirs demo_world; files := files demo_world;
  listdir := listdir demo_world; writable := writable demo_world;
  environ := {[ u "GEMINI_API_KEY" := [] ]}; console := []; sent := [];
  unicode_alnum := unicode_alnum demo_world;
  pdf_reader := pdf_reader demo_world;
  pdf_writer := pdf_writer demo_world; model := model demo_world;
  pdflatex := pdflatex demo_world
|}.

(** The demo directory with additional details that are not UTF-8
    ("café" in latin-1). *)
Definition latin_details_world : World :=
  set_files (<[u "additional_details.txt" := [99; 97; 102; 233]]> (files demo_world))
    demo_world.


(** The demo directory without a job description. *)
Definition keyless_no_job_world : World :=
  set_files {[ u "resume/cv.pdf" := u "%PDF-1.4" ]} demo_world.

(** A reply in latin-1 with a header and a section, and no bullet item. *)
Definition plain_reply : str := u "\begin{document}
\begin{center}
    \textbf{\Huge \scshape Zoé Müller} \\ \vspace{1pt}
    \small 123-456-7890 $|$ \href{mailto:z@x.com}{\underline{z@x.com}}
\end{center}
\section{Education}
    \resumeSubheading{Acme}{Paris}{Engineer}{2020}
\end{document}
".


(** * Properties *)

(** ** Running the monad *)

Ltac run :=
  cbv beta iota delta
    [bind ret raise try_except lift print path_exists makedirs glob_pdf
     read_bytes read_text write_text environ_get generate_content pdf_output
     subprocess_run fst snd].

Lemma set_console_files c w : files (set_console c w) = files w.
Proof. reflexivity. Qed.

Lemma print_spec line w :
  print line w = (Ret tt, set_console (console w ++ [line]) w).
Proof. reflexivity. Qed.

(** ** Optimization step without a credential *)

(** C5: when [GEMINI_API_KEY] is absent from the environment,
    [optimize_resume_with_gemini] returns [None] whatever its four arguments
    are, prints the two remediation lines and nothing else, and sends
    nothing to the model (files are untouched too). *)
Theorem missing_credential_fails_fast (w : World) (resume_text : str)
    (resume_structure : Structure) (job_description additional_details : str) :
  environ w !! u "GEMINI_API_KEY" = None →
  ∃ w',
    optimize_resume_with_gemini resume_text resume_structure job_description
      additional_details w = (Ret None, w')
    ∧ console w' =
        console w
        ++ [u "Error: GEMINI_API_KEY not found in environment variables.";
            u "Please add your Gemini API key using the Secrets tool."]
    ∧ sent w' = sent w
    ∧ files w' = files w.
Proof.
  intros Hkey. unfold optimize_resume_with_gemini. run. rewrite Hkey.
  eexists. split; [reflexivity|]. cbn [console sent files set_console].
  rewrite <- app_assoc. auto.
Qed.

Lemma missing_credential_fails_fast_witness :
  environ keyless_world !! u "GEMINI_API_KEY" = None
  ∧ ∃ w',
      optimize_resume_with_gemini page_one
        (analyze_resume_structure (fun _ => false) page_one)
        (u "Engineer wanted") [] keyless_world = (Ret None, w')
      ∧ console w' =
          console keyless_world
          ++ [u "Error: GEMINI_API_KEY not found in environment variables.";
              u "Please add your Gemini API key using the Secrets tool."]
      ∧ sent w' = sent keyless_world
      ∧ files w' = files keyless_world.
Proof.
  split; [reflexivity|].
  apply (missing_credential_fails_fast keyless_world). reflexivity.
Defined.

(** ** The instruction does not depend on the world *)




(** ** Document Extractor *)

Lemma read_pages_all (pages : list str) (text : str) :
  read_pages (Ret <$> pages) text
  = Ret (text ++ concat ((fun t => t ++ [nl]) <$> pages)).
Proof.
  revert text. induction pages as [|t pages IH]; intros text; cbn.
  - by rewrite app_nil_r.
  - rewrite IH. by rewrite <- !app_assoc.
Qed.

(** C8, as the code has it: when the file opens and every page yields its
    text, [extract_from_pdf] returns the page texts each followed by a line
    break, the last page included, together with the analysis of that text;
    it prints nothing and changes nothing. *)
Theorem extract_appends_newline_per_page (w : World) (pdf_path file : str)
    (pages : list str) :
  files w !! pdf_path = Some file →
  pdf_reader w file = Ret (Ret <$> pages) →
  let text := concat ((fun t => t ++ [nl]) <$> pages) in
  extract_from_pdf pdf_path w
  = (Ret (Some text, Some (analyze_resume_structure (unicode_alnum w) text)), w).
Proof.
  intros Hfile Hpages text. unfold extract_from_pdf. run.
  rewrite Hfile, Hpages, read_pages_all. reflexivity.
Qed.

Lemma extract_appends_newline_per_page_witness :
  extract_from_pdf (u "resume/cv.pdf") two_page_world
  = (Ret (Some (u "a" ++ [nl] ++ u "b" ++ [nl]),
          Some (analyze_resume_structure (fun _ => false)
                  (u "a" ++ [nl] ++ u "b" ++ [nl]))),
     two_page_world).
Proof.
  apply (extract_appends_newline_per_page two_page_world (u "resume/cv.pdf")
           (u "%PDF-1.4") [u "a"; u "b"]); reflexivity.
Defined.

(** C8, as the claim has it, fails: for the pages "a" and "b" the text is
    not "a", line break, "b"; a line break follows the last page as well. *)
Lemma extract_is_not_a_join :
  fst <$> returned (extract_from_pdf (u "resume/cv.pdf") two_page_world)
  ≠ Some (Some (join [nl] [u "a"; u "b"])).
Proof. vm_compute. discriminate. Qed.

(** ** Leading name of the resume text *)


(** ** Indentation style *)

(** C3 at a text indented with tabs only: no line break is followed by two
    space characters, one is followed by a tab, and the analyzer answers
    "spaces" where the claim (and the branch for tabs) says "tabs". *)
Theorem tabs_reported_as_spaces (alnum : N → bool) :
  indentation_style (analyze_resume_structure alnum tab_indented) = u "spaces"
  ∧ contains [nl; 32; 32] tab_indented = false
  ∧ contains [nl; tab] tab_indented = true.
Proof. split; [|split]; vm_compute; reflexivity. Qed.

(** ** A job description that is not UTF-8 *)

(** C2 at [latin_job_world]: the read of lines 59-61 raises
    UnicodeDecodeError and nothing catches it, so the run ends with the
    exception instead of returning. *)
Theorem main_raises_on_undecodable_job_description :
  raised (main latin_job_world) = Some UnicodeDecodeError.
Proof. vm_compute. reflexivity. Qed.

(** ** Rendering a reply that follows the template *)

(** C6 at [template_reply]: the bullet glyph drawn by line 437 is outside
    latin-1, the drawing raises, and [create_pdf_resume] returns [None]: no
    preview is written, only the [.tex] file. *)
Theorem template_reply_yields_no_preview :
  let r := create_pdf_resume template_reply (u "newresume/optimized_cv.pdf")
             demo_world in
  returned r = Some None
  ∧ files (snd r) !! u "newresume/optimized_cv.pdf" = None
  ∧ is_Some (files (snd r) !! u "newresume/optimized_cv.tex")
  ∧ (fun m => group m 1) <$> re_finditer bullet_re template_reply
    = [u "Did a thing well"]
  ∧ header_name template_reply = u "Jane Doe".
Proof.
  cbv zeta. repeat split; try (vm_compute; reflexivity).
  vm_compute. eexists. reflexivity.
Qed.

(** ** Literal prefixes of a pattern *)









(** ** Layout Renderer on a reply without markers *)




(** ** The text artifact across rendering *)

(** Whatever the renderer does, a file that already holds the encoded reply
    still holds it afterwards, provided it is not the destination. *)
Lemma create_pdf_resume_keeps (w : World) (content output_path p : str)
    (b : bytes) :
  Utf8.encode content = Some b →
  files w !! p = Some b →
  output_path ≠ p →
  ∃ v w', create_pdf_resume content output_path w = (Ret v, w')
          ∧ files w' !! p = Some b.
Proof.
  intros Henc Hp Hne. unfold create_pdf_resume. run. rewrite Henc.
  assert (Hsave : ∀ q, <[q := b]> (files w) !! p = Some b).
  { intros q. destruct (decide (q = p)) as [->|Hq].
    - by rewrite lookup_insert_eq.
    - by rewrite lookup_insert_ne. }
  destruct (negb (contains (u ".tex") output_path)).
  - destruct (writable w _); [|eauto].
    destruct (draw_resume content []).
    + cbn [writable set_files]. destruct (writable w output_path).
      * do 2 eexists. split; [reflexivity|]. cbn [files set_files].
        by rewrite lookup_insert_ne.
      * do 2 eexists. split; [reflexivity|]. cbn [files set_files set_console]. done.
    + do 2 eexists. split; [reflexivity|]. cbn [files set_files set_console]. done.
  - destruct (draw_resume content []).
    + destruct (writable w output_path).
      * do 2 eexists. split; [reflexivity|]. cbn [files set_files].
        by rewrite lookup_insert_ne.
      * eauto.
    + eauto.
Qed.

Lemma compile_latex_keeps (w : World) (output_folder tex_path stem_ : str) :
  ∃ w', compile_latex output_folder tex_path stem_ w = (Ret tt, w')
        ∧ files w' = files w.
Proof.
  unfold compile_latex. run. cbn [pdflatex set_console].
  destruct (pdflatex w _) as [[code err]|e].
  - cbn [fst snd]. destruct (bool_decide (code = 0%Z)); eauto.
  - eauto.
Qed.

Lemma preview_is_not_the_text (folder name : str) :
  joinpath folder (u "optimized_" ++ name ++ u ".pdf")
  ≠ joinpath folder (u "optimized_" ++ name ++ u ".tex").
Proof.
  unfold joinpath. intros H.
  do 4 apply app_inv_head in H. vm_compute in H. discriminate.
Qed.

(** C7: once the orchestrator has saved the reply to the [.tex] file (the
    path can be written and the reply can be encoded), the rest of the run
    returns normally and that file holds the encoded reply, whatever the
    renderer does: a second save writes the same bytes, a failed drawing or
    a failed preview leaves the file alone. *)
Theorem text_artifact_holds_the_reply (w : World)
    (output_folder resume_name reply : str) (b : bytes) :
  let tex_path :=
    joinpath output_folder (u "optimized_" ++ stem resume_name ++ u ".tex") in
  writable w tex_path = true →
  Utf8.encode reply = Some b →
  ∃ w', save_and_render output_folder resume_name reply w = (Ret tt, w')
        ∧ files w' !! tex_path = Some b.
Proof.
  intros tex_path Hw Henc. unfold save_and_render.
  fold tex_path. unfold bind at 1. unfold write_text. rewrite Hw, Henc.
  unfold bind at 1. rewrite print_spec. unfold bind at 1. rewrite print_spec.
  set (w1 := set_console _ (set_console _ (set_files _ w))).
  assert (H1 : files w1 !! tex_path = Some b).
  { subst w1. cbn [files set_console set_files]. by rewrite lookup_insert_eq. }
  destruct (create_pdf_resume_keeps w1 reply
              (joinpath output_folder (u "optimized_" ++ stem resume_name ++ u ".pdf"))
              tex_path b Henc H1 (preview_is_not_the_text _ _))
    as (v & w2 & Hrun & H2).
  unfold bind at 1. rewrite Hrun.
  unfold bind at 1. rewrite print_spec.
  destruct (compile_latex_keeps (set_console (console w2 ++ [u "PDF preview created at: " ++ show_path v]) w2)
              output_folder tex_path (stem resume_name)) as (w3 & Hc & H3).
  exists w3. split; [exact Hc|]. rewrite H3. exact H2.
Qed.

Lemma text_artifact_holds_the_reply_witness :
  ∃ w', save_and_render (u "newresume") (u "cv.pdf") template_reply demo_world
        = (Ret tt, w')
        ∧ files w' !! joinpath (u "newresume")
                         (u "optimized_" ++ stem (u "cv.pdf") ++ u ".tex")
          = Some template_reply.
Proof.
  apply (text_artifact_holds_the_reply demo_world (u "newresume") (u "cv.pdf")
           template_reply template_reply).
  - reflexivity.
  - vm_compute. reflexivity.
Defined.

(** ** Section detection *)

Lemma prev_after_cons (prev : option N) (c : N) (m : str) :
  prev_after prev (c :: m) = prev_after (Some c) m.
Proof.
  unfold prev_after. destruct m as [|x m]; [done|].
  rewrite last_cons. by destruct (last (x :: m)).
Qed.

Lemma rmatch_litsI (name : str) (k : kont) (prev : option N) (s : str)
    (g : groups) (x : str * groups) :
  rmatch (litsI name) k prev s g = Some x
  ↔ ∃ m rest, s = m ++ rest ∧ same_ignoring_case m name
              ∧ k (prev_after prev m) rest g = Some x.
Proof.
  revert prev s. induction name as [|c name IH]; intros prev s; cbn [litsI rmatch].
  - split.
    + intros H. exists [], s. repeat split; [constructor | done].
    + intros (m & rest & -> & Hm & Hk). by inversion Hm; subst.
  - unfold one. destruct s as [|y s].
    + split; [done|]. intros (m & rest & Hs & Hm & _).
      inversion Hm; subst. discriminate.
    + destruct (fold_case y =? fold_case c) eqn:E.
      * apply N.eqb_eq in E. rewrite IH. split.
        -- intros (m & rest & -> & Hm & Hk). exists (y :: m), rest.
           rewrite prev_after_cons. repeat split; [by constructor | done].
        -- intros (m & rest & Hs & Hm & Hk). inversion Hm as [|y' c' m' ? Hy Hm']; subst.
           injection Hs as -> ->. exists m', rest.
           rewrite prev_after_cons in Hk. done.
      * apply N.eqb_neq in E. split; [done|].
        intros (m & rest & Hs & Hm & _). inversion Hm; subst.
        injection Hs as -> ->. done.
Qed.

(** [re.search] finds a match exactly when the pattern matches at the head
    of some suffix. *)
Lemma search_from_found (r : regex) (prev : option N) (s : str) (pos : nat) :
  found (search_from r prev s pos) = true
  ↔ ∃ a b, s = a ++ b ∧ is_Some (rmatch r accept (prev_after prev a) b []).
Proof.
  revert prev pos. induction s as [|c s IH]; intros prev pos.
  - cbn [search_from]. unfold match_here.
    destruct (rmatch r accept prev [] []) as [[rest g]|] eqn:E; cbn.
    + split; [|done]. intros _. exists [], []. split; [done|]. cbn. rewrite E. eauto.
    + split; [done|]. intros (a & b & Hab & [x Hx]).
      symmetry in Hab. apply app_eq_nil in Hab as [-> ->]. cbn in Hx. congruence.
  - cbn [search_from]. unfold match_here.
    destruct (rmatch r accept prev (c :: s) []) as [[rest g]|] eqn:E.
    + cbn. split; [|done]. intros _. exists [], (c :: s). split; [done|].
      cbn. rewrite E. eauto.
    + rewrite IH. split.
      * intros (a & b & -> & Hm). exists (c :: a), b. split; [done|].
        by rewrite prev_after_cons.
      * intros (a & b & Hab & Hm). destruct a as [|y a].
        -- cbn in Hab. subst b. cbn in Hm. rewrite E in Hm. by destruct Hm.
        -- injection Hab as -> ->. exists a, b. split; [done|].
           by rewrite prev_after_cons in Hm.
Qed.

Lemma folds_to_letter_is_word (alnum : N → bool) (x c : N) :
  is_upper c = true → fold_case x = fold_case c → is_word alnum x = true.
Proof.
  unfold fold_case, is_word, is_upper, is_lower, is_digit, Utf8.between.
  intros Hc. rewrite Hc.
  repeat match goal with
         | |- context [?a <=? ?b] => destruct (N.leb_spec a b)
         | |- context [?a =? ?b] => destruct (N.eqb_spec a b)
         | H : context [?a <=? ?b] |- _ => destruct (N.leb_spec a b)
         end; cbn; try done; try lia.
Qed.

Lemma same_ignoring_case_words (alnum : N → bool) (m name : str) :
  Forall (fun c => is_upper c = true) name → same_ignoring_case m name →
  Forall (fun x => is_word alnum x = true) m.
Proof.
  intros Hname Hm. induction Hm as [|x c m name Hx Hm IH]; [constructor|].
  apply Forall_cons in Hname as [Hc Hname]. constructor; [|by apply IH].
  by eapply folds_to_letter_is_word.
Qed.

(** The pattern of one section name, read as a statement about the text. *)
Lemma section_name_found (alnum : N → bool) (name text : str) :
  name ≠ [] → Forall (fun c => is_upper c = true) name →
  found (re_search (section_name_re alnum name) text) = true
  ↔ whole_word alnum name text.
Proof.
  intros Hne Hup. unfold re_search. rewrite search_from_found.
  unfold whole_word, section_name_re. split.
  - intros (a & b & -> & [x Hx]). cbn [rmatch] in Hx.
    assert (Ha : prev_after None a = last a) by (unfold prev_after; by destruct (last a)).
    rewrite Ha in Hx.
    destruct (xorb _ _) eqn:E1; [|done].
    apply rmatch_litsI in Hx as (m & rest & -> & Hm & Hk). cbn [rmatch] in Hk.
    destruct (xorb (from_option _ false (prev_after (last a) m)) _) eqn:E2; [|done].
    pose proof (same_ignoring_case_words alnum m name Hup Hm) as Hw.
    destruct m as [|y m]. { inversion Hm; subst. done. }
    exists a, (y :: m), rest. split; [done|]. split; [done|].
    apply Forall_cons in Hw as [Hy Hw].
    cbn in E1. rewrite Hy in E1. unfold word_char. split.
    + by destruct (from_option (is_word alnum) false (last a)).
    + assert (Hl : ∃ z, prev_after (last a) (y :: m) = Some z ∧ is_word alnum z = true).
      { unfold prev_after. destruct (last (y :: m)) as [z|] eqn:El.
        - exists z. split; [done|]. apply last_Some in El as [l' El].
          assert (Hz : Forall (fun x => is_word alnum x = true) (y :: m))
            by by constructor.
          rewrite El in Hz. apply Forall_app in Hz as [_ Hz].
          by apply Forall_cons in Hz as [Hz _].
        - by apply last_None in El. }
      destruct Hl as (z & Hz1 & Hz2). rewrite Hz1 in E2. cbn in E2.
      rewrite Hz2 in E2. by destruct (from_option (is_word alnum) false (head rest)).
  - intros (a & m & b & -> & Hm & Ha & Hb). exists a, (m ++ b). split; [done|].
    assert (Hpa : prev_after None a = last a) by (unfold prev_after; by destruct (last a)).
    rewrite Hpa.
    pose proof (same_ignoring_case_words alnum m name Hup Hm) as Hw.
    destruct m as [|y m]. { inversion Hm; subst. done. }
    apply Forall_cons in Hw as [Hy Hw]. unfold word_char in Ha, Hb.
    assert (Hz : ∃ z, prev_after (last a) (y :: m) = Some z ∧ is_word alnum z = true).
    { unfold prev_after. destruct (last (y :: m)) as [z|] eqn:El.
      - exists z. split; [done|]. apply last_Some in El as [l' El].
        assert (Hall : Forall (fun x => is_word alnum x = true) (y :: m))
          by by constructor.
        rewrite El in Hall. apply Forall_app in Hall as [_ Hall].
        by apply Forall_cons in Hall as [Hall _].
      - by apply last_None in El. }
    destruct Hz as (z & Hz1 & Hz2).
    assert (Hrun : rmatch (Cat (WordB (is_word alnum))
                            (Cat (litsI name) (WordB (is_word alnum))))
                     accept (last a) ((y :: m) ++ b) [] = Some (b, [])).
    { cbn [rmatch head app from_option]. rewrite Ha, Hy. cbn [xorb].
      apply rmatch_litsI. exists (y :: m), b. split; [done|]. split; [done|].
      cbn beta. rewrite Hz1. cbn [from_option]. rewrite Hz2, Hb. done. }
    rewrite Hrun. eauto.
Qed.

Lemma detect_sections_filter (alnum : N → bool) (names : list str) (text : str)
    (acc : list str) :
  detect_sections alnum names text acc
  = acc ++ filter (fun name =>
                     found (re_search (section_name_re alnum name) text) = true)
             names.
Proof.
  revert acc. induction names as [|name names IH]; intros acc; cbn [detect_sections].
  - by rewrite filter_nil, app_nil_r.
  - rewrite filter_cons. destruct (found _) eqn:E.
    + rewrite IH. rewrite decide_True by done. by rewrite <- app_assoc.
    + rewrite IH. by rewrite decide_False by done.
Qed.

Lemma common_sections_upper :
  Forall (fun name => name ≠ [] ∧ Forall (fun c => is_upper c = true) name)
    common_sections.
Proof.
  repeat constructor; try (vm_compute; discriminate).
Qed.

(** C4: for a name of the vocabulary, the analyzer lists it exactly when it
    occurs in the text as a whole word, case ignored; and the list is a
    subsequence of the vocabulary, so its order is the vocabulary's and not
    the document's. *)
Theorem sections_are_the_whole_words (alnum : N → bool) (text name : str) :
  name ∈ common_sections →
  (name ∈ sections (analyze_resume_structure alnum text)
   ↔ whole_word alnum name text)
  ∧ sublist (sections (analyze_resume_structure alnum text)) common_sections.
Proof.
  intros Hin. cbn [sections analyze_resume_structure].
  rewrite detect_sections_filter, app_nil_l. split.
  - rewrite list_elem_of_filter.
    pose proof common_sections_upper as Hall.
    rewrite Forall_forall in Hall. destruct (Hall name Hin) as [Hne Hup].
    rewrite section_name_found by done. tauto.
  - apply sublist_filter.
Qed.

Lemma sections_are_the_whole_words_witness :
  u "SKILLS" ∈ common_sections
  ∧ (u "SKILLS" ∈ sections (analyze_resume_structure (fun _ => false)
                              (u "Education and skills"))
     ↔ whole_word (fun _ => false) (u "SKILLS") (u "Education and skills"))
  ∧ sublist (sections (analyze_resume_structure (fun _ => false)
                         (u "Education and skills")))
      common_sections.
Proof.
  assert (H : u "SKILLS" ∈ common_sections).
  { apply list_elem_of_In. cbn. tauto. }
  split; [exact H|].
  exact (sections_are_the_whole_words (fun _ => false)
           (u "Education and skills") (u "SKILLS") H).
Defined.

(** * Further properties of the program *)

(** ** The matcher on a repetition *)

Lemma run_of_split (p : N → bool) (s : str) :
  s = run_of p s ++ drop (length (run_of p s)) s.
Proof.
  induction s as [|c s IH]; [done|]. cbn [run_of].
  destruct (p c); [|done]. cbn. by rewrite <- IH.
Qed.

Lemma run_of_Forall (p : N → bool) (s : str) :
  Forall (fun c => p c = true) (run_of p s).
Proof.
  induction s as [|c s IH]; cbn [run_of]; [constructor|].
  destruct (p c) eqn:E; [by constructor | constructor].
Qed.

(** A greedy repetition takes the longest run when what follows accepts it. *)
Lemma many_greedy (p : N → bool) (lo : nat) (k : kont) (prev : option N)
    (s : str) (g : groups) :
  (lo ≤ length (run_of p s))%nat →
  is_Some (k (prev_after prev (run_of p s)) (drop (length (run_of p s)) s) g) →
  many p lo k prev s g
  = k (prev_after prev (run_of p s)) (drop (length (run_of p s)) s) g.
Proof.
  revert lo prev. induction s as [|c s IH]; intros lo prev Hlo Hk.
  - cbn in *. destruct lo; [done|lia].
  - cbn [many run_of] in *. destruct (p c) eqn:E.
    + cbn [length drop] in *. rewrite prev_after_cons in *.
      rewrite IH by (done || lia). by destruct Hk as [x ->].
    + cbn in *. destruct lo; [done|lia].
Qed.

Lemma many_too_short (p : N → bool) (lo : nat) (k : kont) (prev : option N)
    (s : str) (g : groups) :
  (length (run_of p s) < lo)%nat → many p lo k prev s g = None.
Proof.
  revert lo prev. induction s as [|c s IH]; intros lo prev Hlo.
  - cbn in *. destruct lo; [lia|done].
  - cbn [many run_of] in *. destruct (p c) eqn:E.
    + cbn [length] in Hlo. rewrite IH by lia. destruct lo; [lia|done].
    + cbn in Hlo. destruct lo; [lia|done].
Qed.

(** What a successful repetition has read. *)
Lemma many_sound (p : N → bool) (lo : nat) (k : kont) (prev : option N)
    (s : str) (g : groups) (x : str * groups) :
  many p lo k prev s g = Some x →
  ∃ m rest, s = m ++ rest ∧ Forall (fun c => p c = true) m
            ∧ (lo ≤ length m)%nat ∧ k (prev_after prev m) rest g = Some x.
Proof.
  revert lo prev. induction s as [|c s IH]; intros lo prev H.
  - cbn in H. destruct lo; [|done]. exists [], []. by repeat split.
  - cbn [many] in H.
    assert (Hstop : match lo with O => k prev (c :: s) g | S _ => None end = Some x →
                    ∃ m rest, c :: s = m ++ rest ∧ Forall (fun c => p c = true) m
                      ∧ (lo ≤ length m)%nat ∧ k (prev_after prev m) rest g = Some x).
    { destruct lo; [|done]. intros Hk. exists [], (c :: s). by repeat split. }
    destruct (p c) eqn:E; [|by apply Hstop].
    destruct (many p (pred lo) k (Some c) s g) as [y|] eqn:Hin; [|by apply Hstop].
    injection H as ->. apply IH in Hin as (m & rest & -> & Hm & Hlen & Hk).
    exists (c :: m), rest. rewrite prev_after_cons.
    repeat split; [by constructor | cbn; lia | done].
Qed.

(** ** Structure Analyzer: bullets, indentation, tables *)

Lemma search_from_set1 (cs : cset) (prev : option N) (s : str) (pos : nat) :
  found (search_from (Set1 cs) prev s pos) = existsb (in_cset cs) s.
Proof.
  revert prev pos. induction s as [|c s IH]; intros prev pos; [done|].
  cbn [search_from existsb]. unfold match_here. cbn [rmatch]. unfold one.
  destruct (in_cset cs c); cbn [found orb]; [done | apply IH].
Qed.

Lemma one_of_chars (l : str) (c : N) :
  in_cset (OneOf (Ch <$> l)) c = true ↔ c ∈ l.
Proof.
  cbn [in_cset]. induction l as [|x l IH]; cbn.
  - split; [done|]. by intros ?%not_elem_of_nil.
  - rewrite orb_true_iff, IH, N.eqb_eq, elem_of_cons. tauto.
Qed.

(** [has_bullet_points] is set exactly when one of the twelve glyphs of
    line 131 occurs somewhere in the text. *)
Theorem bullets_flag_iff_glyph (alnum : N → bool) (text : str) :
  has_bullet_points (analyze_resume_structure alnum text) = true
  ↔ ∃ c, c ∈ u "•●■◦○◘►▪▫▸▹◆" ∧ c ∈ text.
Proof.
  cbn [has_bullet_points analyze_resume_structure]. unfold re_search, bullet_glyph_re.
  rewrite search_from_set1, existsb_exists.
  split; intros (c & H1 & H2); exists c.
  - apply list_elem_of_In in H1. by apply one_of_chars in H2.
  - split; [by apply list_elem_of_In | by apply one_of_chars].
Qed.

Lemma indent_spaces_found (text : str) :
  found (re_search indent_spaces_re text) = true ↔ whitespace_after_break text.
Proof.
  unfold re_search. rewrite search_from_found.
  unfold indent_spaces_re, whitespace_after_break. split.
  - intros (a & b & -> & [x Hx]). cbn [rmatch] in Hx. unfold one in Hx.
    destruct b as [|y b]; [done|]. destruct (N.eqb_spec nl y) as [<-|]; [|done].
    apply many_sound in Hx as (m & rest & -> & Hm & Hlen & _).
    destruct m as [|c1 [|c2 m]]; cbn in Hlen; try lia.
    apply Forall_cons in Hm as [H1 Hm]. apply Forall_cons in Hm as [H2 _].
    cbn [in_cset existsb in_item] in H1, H2. rewrite orb_false_r in H1, H2.
    by exists a, c1, c2, (m ++ rest).
  - intros (a & c1 & c2 & b & -> & H1 & H2). exists a, (nl :: c1 :: c2 :: b).
    split; [done|]. cbn [rmatch]. unfold one. rewrite N.eqb_refl.
    assert (Hrun : (2 ≤ length (run_of (in_cset (OneOf [WS])) (c1 :: c2 :: b)))%nat).
    { cbn [run_of in_cset existsb in_item]. rewrite H1, H2. cbn. lia. }
    rewrite many_greedy; unfold accept; eauto.
Qed.

Lemma indent_tabs_found (text : str) :
  found (re_search indent_tabs_re text) = true ↔ occurs [nl; tab] text.
Proof.
  unfold re_search. rewrite search_from_found. unfold indent_tabs_re, occurs. split.
  - intros (a & b & -> & [x Hx]). cbn [rmatch] in Hx. unfold one in Hx.
    destruct b as [|y b]; [done|]. destruct (N.eqb_spec nl y) as [<-|]; [|done].
    destruct b as [|z b]; [done|]. destruct (N.eqb_spec tab z) as [<-|]; [|done].
    by exists a, b.
  - intros (a & b & ->). exists a, (nl :: tab :: b). split; [done|].
    cbn [rmatch]. unfold one. rewrite !N.eqb_refl. unfold accept. eauto.
Qed.

(** The indentation style as the code decides it: "spaces" exactly when some
    line break is followed by two white-space characters of any kind
    (spaces, tabs, further line breaks, ...); "tabs" exactly when that is
    not so and some line break is followed by a tab; "unknown" otherwise. *)
Theorem indentation_style_by_white_space (alnum : N → bool) (text : str) :
  let style := indentation_style (analyze_resume_structure alnum text) in
  (style = u "spaces" ↔ whitespace_after_break text)
  ∧ (style = u "tabs"
     ↔ ¬ whitespace_after_break text ∧ occurs [nl; tab] text)
  ∧ (style = u "unknown"
     ↔ ¬ whitespace_after_break text ∧ ¬ occurs [nl; tab] text).
Proof.
  cbn [indentation_style analyze_resume_structure].
  rewrite <- indent_spaces_found, <- indent_tabs_found.
  destruct (found (re_search indent_spaces_re text));
    destruct (found (re_search indent_tabs_re text));
    repeat split; try (intros [? ?]); try done;
    try (intros H; vm_compute in H; discriminate).
Qed.

Lemma take_matched (m rest : str) :
  take (length (m ++ rest) - length rest) (m ++ rest) = m.
Proof.
  rewrite length_app. replace (length m + length rest - length rest)%nat
    with (length m) by lia.
  by rewrite take_app_length.
Qed.





(** ** Leading name of the resume text *)

Lemma run_of_ext (p q : N → bool) (s : str) :
  (∀ c, p c = q c) → run_of p s = run_of q s.
Proof.
  intros H. induction s as [|c s IH]; [done|]. cbn. rewrite H, IH. done.
Qed.

Lemma name_class (c : N) :
  in_cset (OneOf [Rg 65 90; Rg 97 122; WS]) c = name_char c.
Proof.
  cbn [in_cset existsb in_item]. unfold name_char, is_upper, is_lower, Utf8.between.
  by rewrite orb_false_r, orb_assoc.
Qed.

Lemma search_from_bol (r : regex) (c : N) (s : str) (pos : nat) :
  search_from (Cat Bol r) (Some c) s pos = None.
Proof.
  revert c pos. induction s as [|x s IH]; intros c pos; cbn [search_from];
    unfold match_here; cbn [rmatch]; [done | apply IH].
Qed.

(** The name of lines 165-166 is the longest leading run of letters and
    white space, stripped; it is the placeholder "Name" only when the text
    is empty or starts with another character.  (A text that starts with
    white space and no letter thus gets the empty name.) *)
Theorem leading_name_is_the_stripped_run (resume_text : str) :
  leading_name resume_text
  = match run_of name_char resume_text with
    | [] => u "Name"
    | c :: r => strip (c :: r)
    end.
Proof.
  unfold leading_name, re_search, leading_name_re.
  rewrite <- (run_of_ext _ _ resume_text name_class).
  set (p := in_cset (OneOf [Rg 65 90; Rg 97 122; WS])).
  destruct (run_of p resume_text) as [|c r] eqn:Hrun.
  - assert (Hhere : match_here (Cat Bol (Group 1 (Many (OneOf [Rg 65 90; Rg 97 122; WS]) 1)))
                      None resume_text 0 = None).
    { unfold match_here. cbn [rmatch]. fold p.
      rewrite many_too_short; [done|]. rewrite Hrun. cbn. lia. }
    destruct resume_text as [|x s]; cbn [search_from]; rewrite Hhere; [done|].
    by rewrite search_from_bol.
  - pose proof (run_of_split p resume_text) as Hsplit. rewrite Hrun in Hsplit.
    remember (drop (length (c :: r)) resume_text) as rest eqn:Hrest. clear Hrest.
    subst resume_text. cbn [app search_from]. unfold match_here. cbn [rmatch].
    fold p. change (c :: r ++ rest) with ((c :: r) ++ rest).
    rewrite many_greedy; rewrite ?Hrun, ?drop_app_length; unfold accept;
      [|cbn; lia|eauto].
    by rewrite take_matched.
Qed.

(** ** Document Extractor: failures *)


(** ** Optimization Client: failures and the single call *)


(** A credential that is set but empty counts as missing: the same two
    lines, no reply, nothing sent. *)
Theorem empty_credential_is_missing (w : World) (resume_text : str)
    (resume_structure : Structure) (job_description additional_details : str) :
  environ w !! u "GEMINI_API_KEY" = Some [] →
  ∃ w',
    optimize_resume_with_gemini resume_text resume_structure job_description
      additional_details w = (Ret None, w')
    ∧ console w' =
        console w
        ++ [u "Error: GEMINI_API_KEY not found in environment variables.";
            u "Please add your Gemini API key using the Secrets tool."]
    ∧ sent w' = sent w.
Proof.
  intros Hkey. unfold optimize_resume_with_gemini. run. rewrite Hkey.
  eexists. split; [reflexivity|]. cbn [console sent set_console].
  rewrite <- app_assoc. auto.
Qed.

Lemma empty_credential_is_missing_witness :
  ∃ w',
    optimize_resume_with_gemini page_one
      (analyze_resume_structure (fun _ => false) page_one)
      (u "Engineer wanted") [] empty_key_world = (Ret None, w')
    ∧ console w' =
        console empty_key_world
        ++ [u "Error: GEMINI_API_KEY not found in environment variables.";
            u "Please add your Gemini API key using the Secrets tool."]
    ∧ sent w' = sent empty_key_world.
Proof.
  apply (empty_credential_is_missing empty_key_world). reflexivity.
Defined.

(** ** Layout Renderer: what its result means *)


(** ** Layout Renderer: texts the core font cannot hold *)











(** ** Orchestrator: names of the artifacts *)

Lemma rfind_app (c : N) (a b : str) :
  rfind c (a ++ b)
  = match rfind c b with
    | Some i => Some (length a + i)%nat
    | None => rfind c a
    end.
Proof.
  induction a as [|x a IH]; cbn [app rfind length].
  - by destruct (rfind c b).
  - rewrite IH. destruct (rfind c b); [done|]. by destruct (rfind c a).
Qed.

Lemma ends_with_spec (suffix s : str) :
  ends_with suffix s = true ↔ ∃ base, s = base ++ suffix.
Proof.
  induction s as [|x s IH]; cbn [ends_with].
  - rewrite orb_false_r, bool_decide_eq_true. split.
    + intros <-. by exists [].
    + intros [base H]. symmetry in H. by apply app_eq_nil in H as [_ ->].
  - rewrite orb_true_iff, bool_decide_eq_true, IH. split.
    + intros [<-|[base ->]]; [by exists [] | by exists (x :: base)].
    + intros [[|y base] H]; [by left|]. injection H as -> ->. right. eauto.
Qed.

(** Every name the search for "*.pdf" returns is some [base] followed by
    ".pdf", and its stem is that [base], dots inside it included; the one
    exception is the bare name ".pdf", whose stem is ".pdf" itself. *)
Theorem stems_of_found_resumes (w : World) (folder name : str) :
  (∃ names, returned (glob_pdf folder w) = Some names ∧ name ∈ names) →
  ∃ base, name = base ++ u ".pdf"
          ∧ stem name = (if bool_decide (base = []) then name else base).
Proof.
  intros (names & Hret & Hin). unfold glob_pdf, returned in Hret.
  cbn [fst] in Hret. injection Hret as <-.
  apply list_elem_of_filter in Hin as [Hends _].
  apply ends_with_spec in Hends as [base ->]. exists base. split; [done|].
  unfold stem. rewrite rfind_app.
  replace (rfind 46 (u ".pdf")) with (Some 0%nat) by (vm_compute; reflexivity).
  rewrite length_app. replace (length (u ".pdf")) with 4%nat by (vm_compute; reflexivity).
  destruct base as [|x base].
  - rewrite (bool_decide_eq_true_2 (@nil N = [])) by done. cbn [length app].
    rewrite (bool_decide_eq_false_2 (0 < 0 + 0)%nat) by lia. done.
  - rewrite (bool_decide_eq_false_2 (x :: base = [])) by done.
    cbn [length]. rewrite !bool_decide_eq_true_2 by lia. cbn [andb].
    replace (S (length base) + 0)%nat with (length (x :: base)) by (cbn; lia).
    by rewrite take_app_length.
Qed.

Lemma stems_of_found_resumes_witness :
  ∃ base, u "cv.pdf" = base ++ u ".pdf"
          ∧ stem (u "cv.pdf") = (if bool_decide (base = []) then u "cv.pdf" else base).
Proof.
  apply (stems_of_found_resumes demo_world (u "resume")).
  exists [u "cv.pdf"]. split; [reflexivity | apply list_elem_of_In; cbn; tauto].
Defined.

(** ** Orchestrator: the optional details *)

(** When [additional_details.txt] is a file, loading it never fails,
    whatever its bytes are: the text is the UTF-8 reading when the bytes are
    valid UTF-8 and the latin-1 reading (one character per byte) otherwise,
    line ends normalised; one line is printed and no file changes. *)
Theorem additional_details_always_load (w : World) (b : bytes) :
  files w !! u "additional_details.txt" = Some b →
  ∃ w', load_additional_details w
        = (Ret (universal_newlines (default b (Utf8.decode b))), w')
        ∧ files w' = files w ∧ sent w' = sent w
        ∧ length (console w') = S (length (console w)).
Proof.
  intros Hf. unfold load_additional_details. unfold bind at 1.
  unfold path_exists. rewrite Hf.
  rewrite (bool_decide_eq_true_2 (is_Some (Some b))) by eauto. rewrite orb_true_r.
  run. rewrite Hf. cbn [decode].
  destruct (Utf8.decode b) as [s|] eqn:Hd; cbn [default].
  - eexists. split; [reflexivity|]. cbn [files sent console set_console].
    rewrite length_app. cbn. repeat split; lia.
  - rewrite Hf. eexists. split; [reflexivity|]. cbn [files sent console set_console].
    rewrite length_app. cbn. repeat split; lia.
Qed.

Lemma additional_details_always_load_witness :
  ∃ w', load_additional_details latin_details_world
        = (Ret (universal_newlines
                  (default [99; 97; 102; 233] (Utf8.decode [99; 97; 102; 233]))), w')
        ∧ files w' = files latin_details_world ∧ sent w' = sent latin_details_world
        ∧ length (console w') = S (length (console latin_details_world)).
Proof.
  apply (additional_details_always_load latin_details_world). reflexivity.
Defined.

(** ** Orchestrator: where a run writes and how often it calls the model *)

Lemma confined_bind {A B} (c : M A) (k : A → M B) :
  confined c → (∀ a, confined (k a)) → confined (bind c k).
Proof.
  intros Hc Hk w p Hp. unfold bind. specialize (Hc w p Hp).
  destruct (c w) as [[a|e] w'] eqn:E; cbn [snd] in *; [|done].
  rewrite <- Hc. by apply Hk.
Qed.

Lemma confined_try {A} (body : M A) (handler : exn → M A) :
  confined body → (∀ e, confined (handler e)) → confined (try_except body handler).
Proof.
  intros Hc Hk w p Hp. unfold try_except. specialize (Hc w p Hp).
  destruct (body w) as [[a|e] w'] eqn:E; cbn [snd] in *; [done|].
  rewrite <- Hc. by apply Hk.
Qed.

Lemma confined_same {A} (c : M A) :
  (∀ w, files (snd (c w)) = files w) → confined c.
Proof. intros H w p _. by rewrite H. Qed.

Lemma confined_write_text (p content : str) :
  in_output_folder p → confined (write_text p content).
Proof.
  intros Hp w q Hq. unfold write_text.
  assert (p ≠ q) by (by intros ->).
  destruct (writable w p); [|done].
  destruct (Utf8.encode content); cbn [snd files set_files];
    by rewrite lookup_insert_ne.
Qed.

Lemma confined_pdf_output (pdf : list pdf_op) (p : str) :
  in_output_folder p → confined (pdf_output pdf p).
Proof.
  intros Hp w q Hq. unfold pdf_output.
  assert (p ≠ q) by (by intros ->).
  destruct (writable w p); [|done].
  cbn [snd files set_files]. by rewrite lookup_insert_ne.
Qed.

Lemma calls_bind {A B} (n m : nat) (c : M A) (k : A → M B) :
  calls n c → (∀ a, calls m (k a)) → calls (n + m) (bind c k).
Proof.
  intros Hc Hk w. unfold bind. destruct (Hc w) as (l1 & H1 & Hn).
  destruct (c w) as [[a|e] w'] eqn:E; cbn [snd] in *.
  - destruct (Hk a w') as (l2 & H2 & Hm). exists (l1 ++ l2).
    rewrite H2, H1, length_app, app_assoc. split; [done|lia].
  - exists l1. split; [done|lia].
Qed.

Lemma calls_try {A} (n m : nat) (body : M A) (handler : exn → M A) :
  calls n body → (∀ e, calls m (handler e)) → calls (n + m) (try_except body handler).
Proof.
  intros Hc Hk w. unfold try_except. destruct (Hc w) as (l1 & H1 & Hn).
  destruct (body w) as [[a|e] w'] eqn:E; cbn [snd] in *.
  - exists l1. split; [done|lia].
  - destruct (Hk e w') as (l2 & H2 & Hm). exists (l1 ++ l2).
    rewrite H2, H1, length_app, app_assoc. split; [done|lia].
Qed.

Lemma calls_same {A} (c : M A) :
  (∀ w, sent (snd (c w)) = sent w) → calls 0 c.
Proof. intros H w. exists []. by rewrite H, app_nil_r. Qed.

Lemma calls_more {A} (n m : nat) (c : M A) : (n ≤ m)%nat → calls n c → calls m c.
Proof. intros Hle H w. destruct (H w) as (l & Hl & Hn). exists l. split; [done|lia]. Qed.

(** The statements that touch neither a file nor the model. *)
Ltac inert :=
  first [apply confined_same | apply calls_same]; intros ?;
  cbv beta iota delta [ret raise lift print path_exists makedirs glob_pdf
                       read_bytes environ_get subprocess_run];
  repeat match goal with
         | |- context [match ?x with _ => _ end] => destruct x
         | |- context [if ?b then _ else _] => destruct b
         end; reflexivity.

Ltac compose lemma_bind lemma_try :=
  cbv zeta;
  repeat match goal with
         | |- confined (bind _ _) => apply lemma_bind; [|intros ?]
         | |- calls _ (bind _ _) => apply lemma_bind; [|intros ?]
         | |- confined (try_except _ _) => apply lemma_try; [|intros ?]
         | |- calls _ (try_except _ _) => apply lemma_try; [|intros ?]
         | |- confined (if ?b then _ else _) => destruct b
         | |- calls _ (if ?b then _ else _) => destruct b
         | |- confined (match ?x with _ => _ end) => destruct x
         | |- calls _ (match ?x with _ => _ end) => destruct x
         end.

Lemma calls0_bind {A B} (c : M A) (k : A → M B) :
  calls 0 c → (∀ a, calls 0 (k a)) → calls 0 (bind c k).
Proof. apply (calls_bind 0 0). Qed.

Lemma calls0_try {A} (body : M A) (handler : exn → M A) :
  calls 0 body → (∀ e, calls 0 (handler e)) → calls 0 (try_except body handler).
Proof. apply (calls_try 0 0). Qed.

Lemma read_text_confined (p : str) (enc : encoding) : confined (read_text p enc).
Proof. unfold read_text. compose @confined_bind @confined_try; inert. Qed.

Lemma read_text_quiet (p : str) (enc : encoding) : calls 0 (read_text p enc).
Proof. unfold read_text. compose @calls0_bind @calls0_try; inert. Qed.

Lemma write_text_quiet (p content : str) : calls 0 (write_text p content).
Proof.
  apply calls_same. intros w. unfold write_text.
  destruct (writable w p); [|done]. by destruct (Utf8.encode content).
Qed.

Lemma pdf_output_quiet (pdf : list pdf_op) (p : str) : calls 0 (pdf_output pdf p).
Proof.
  apply calls_same. intros w. unfold pdf_output. by destruct (writable w p).
Qed.

Lemma load_additional_details_inert (w : World) :
  files (snd (load_additional_details w)) = files w
  ∧ sent (snd (load_additional_details w)) = sent w.
Proof.
  unfold load_additional_details. run.
  destruct (_ || _); [|done].
  destruct (files w !! _) as [b|]; [|done]. cbn [decode].
  destruct (Utf8.decode b); [done|].
  destruct (files w !! _); done.
Qed.

Lemma extract_confined (p : str) : confined (extract_from_pdf p).
Proof. unfold extract_from_pdf. compose @confined_bind @confined_try; inert. Qed.

Lemma extract_quiet (p : str) : calls 0 (extract_from_pdf p).
Proof. unfold extract_from_pdf. compose @calls0_bind @calls0_try; inert. Qed.

Lemma optimize_confined (rt : str) (st : Structure) (jd ad : str) :
  confined (optimize_resume_with_gemini rt st jd ad).
Proof.
  unfold optimize_resume_with_gemini. compose @confined_bind @confined_try;
    try inert.
  all: apply confined_same; intros w; unfold generate_content; reflexivity.
Qed.

Lemma generate_content_once (key prompt : str) : calls 1 (generate_content key prompt).
Proof. intros w. exists [prompt]. split; [reflexivity | cbn; lia]. Qed.

Lemma optimize_once (rt : str) (st : Structure) (jd ad : str) :
  calls 1 (optimize_resume_with_gemini rt st jd ad).
Proof.
  unfold optimize_resume_with_gemini.
  apply (calls_try 1 0); [|intros e; compose @calls0_bind @calls0_try; inert].
  apply (calls_bind 0 1); [inert|]. intros [[|c key]|].
  - apply (calls_more 0); [lia|]. compose @calls0_bind @calls0_try; inert.
  - cbv zeta. apply (calls_bind 1 0); [apply generate_content_once | intros ?; inert].
  - apply (calls_more 0); [lia|]. compose @calls0_bind @calls0_try; inert.
Qed.

Lemma replace_aux_keeps_prefix (c0 : N) (old new a x : str) :
  Forall (fun c => c ≠ c0) a →
  replace_aux (c0 :: old) new (a ++ x) 0 = a ++ replace_aux (c0 :: old) new x 0.
Proof.
  intros Ha. induction Ha as [|c a Hc Ha IH]; [done|].
  cbn [app replace_aux prefixb].
  destruct (N.eqb_spec c0 c) as [->|]; [done|]. cbn [andb]. by rewrite IH.
Qed.

Lemma output_path_in_folder (name : str) :
  in_output_folder (joinpath (u "newresume") name).
Proof.
  exists name. unfold joinpath. rewrite app_assoc. f_equal.
Qed.

Lemma tex_of_output_path_in_folder (name : str) :
  in_output_folder (replace (u ".pdf") (u ".tex") (joinpath (u "newresume") name)).
Proof.
  unfold replace, joinpath. rewrite app_assoc.
  change (u ".pdf") with (46 :: u "pdf").
  rewrite replace_aux_keeps_prefix.
  - eexists. f_equal.
  - apply Forall_forall. intros c Hc Heq. subst c.
    apply list_elem_of_In in Hc. vm_compute in Hc. intuition discriminate.
Qed.

Lemma create_pdf_resume_confined (content name : str) :
  confined (create_pdf_resume content (joinpath (u "newresume") name)).
Proof.
  unfold create_pdf_resume. compose @confined_bind @confined_try; try inert.
  - apply confined_write_text, tex_of_output_path_in_folder.
  - apply confined_pdf_output, output_path_in_folder.
Qed.

Lemma create_pdf_resume_quiet (content output_path : str) :
  calls 0 (create_pdf_resume content output_path).
Proof.
  unfold create_pdf_resume. compose @calls0_bind @calls0_try; try inert.
  - apply write_text_quiet.
  - apply pdf_output_quiet.
Qed.

Lemma compile_latex_confined (folder tex_path stem_ : str) :
  confined (compile_latex folder tex_path stem_).
Proof. unfold compile_latex. compose @confined_bind @confined_try; inert. Qed.

Lemma compile_latex_quiet (folder tex_path stem_ : str) :
  calls 0 (compile_latex folder tex_path stem_).
Proof. unfold compile_latex. compose @calls0_bind @calls0_try; inert. Qed.

Lemma save_and_render_confined (name reply : str) :
  confined (save_and_render (u "newresume") name reply).
Proof.
  unfold save_and_render. compose @confined_bind @confined_try; try inert.
  - apply confined_write_text, output_path_in_folder.
  - apply create_pdf_resume_confined.
  - apply compile_latex_confined.
Qed.

Lemma save_and_render_quiet (folder name reply : str) :
  calls 0 (save_and_render folder name reply).
Proof.
  unfold save_and_render. compose @calls0_bind @calls0_try; try inert.
  - apply write_text_quiet.
  - apply create_pdf_resume_quiet.
  - apply compile_latex_quiet.
Qed.

Lemma load_additional_details_confined : confined load_additional_details.
Proof. apply confined_same. intros w. apply load_additional_details_inert. Qed.

Lemma load_additional_details_quiet : calls 0 load_additional_details.
Proof. apply calls_same. intros w. apply load_additional_details_inert. Qed.

(** A run of [main] creates or changes files under [newresume/] only: the
    résumé, the job description, the additional details and every other
    file are after the run what they were before, whatever happens. *)
Theorem main_writes_only_to_the_output_folder : confined main.
Proof.
  unfold main. compose @confined_bind @confined_try;
    first [ inert
          | apply load_additional_details_confined
          | apply extract_confined
          | apply read_text_confined
          | apply optimize_confined
          | apply save_and_render_confined ].
Qed.

(** A run of [main] sends at most one instruction to the model. *)
Theorem main_calls_the_model_at_most_once : calls 1 main.
Proof.
  unfold main. cbv zeta.
  apply (calls_bind 0 1); [inert|]. intros there.
  destruct (negb there).
  { apply (calls_more 0); [lia|]. compose @calls0_bind @calls0_try; inert. }
  apply (calls_bind 0 1); [inert|]. intros there'.
  apply (calls_bind 0 1); [destruct (negb there'); inert|]. intros _.
  apply (calls_bind 0 1); [inert|]. intros [|resume_name pdf_files].
  { apply (calls_more 0); [lia|]. inert. }
  apply (calls_bind 0 1); [inert|]. intros _.
  apply (calls_bind 0 1); [inert|]. intros there''.
  destruct (negb there'').
  { apply (calls_more 0); [lia|]. inert. }
  apply (calls_bind 0 1); [apply load_additional_details_quiet|].
  intros additional_details.
  apply (calls_bind 0 1); [apply extract_quiet|]. intros [text structure].
  assert (Hfail : calls 1 (print (u "Failed to extract text from the resume."))).
  { apply (calls_more 0); [lia|]. inert. }
  destruct text as [[|c text]|]; try exact Hfail.
  destruct structure as [structure|]; try exact Hfail.
  apply (calls_bind 0 1); [apply read_text_quiet|]. intros job_description.
  apply (calls_bind 1 0); [apply optimize_once|]. intros [[|c' reply]|].
  - inert.
  - apply save_and_render_quiet.
  - inert.
Qed.

(** ** Orchestrator: a complete run *)













(** ** Orchestrator: the gates *)

(** Without an input folder, without a PDF in it, or without a job
    description, a run of [main] writes no file at all and sends nothing to
    the model. *)
Theorem main_stops_without_inputs (w : World) :
  (files w !! u "resume" = None ∧ u "resume" ∉ dirs w)
  ∨ filter (fun n => ends_with (u ".pdf") n = true) (listdir w (u "resume")) = []
  ∨ (files w !! u "job_description.txt" = None
     ∧ u "job_description.txt" ∉ dirs w) →
  files (snd (main w)) = files w ∧ sent (snd (main w)) = sent w.
Proof.
  intros H.
  pose (P := fun x : result unit * World =>
               files (snd x) = files w ∧ sent (snd x) = sent w).
  change (P (main w)). unfold main. cbv zeta.
  unfold bind at 1. unfold path_exists at 1.
  destruct (bool_decide (u "resume" ∈ dirs w)
            || bool_decide (is_Some (files w !! u "resume"))) eqn:Hres; cbn [negb].
  2: { run. by destruct (writable w (u "resume")). }
  destruct H as [[Hf Hd]|H].
  { rewrite Hf, bool_decide_eq_false_2 in Hres by done.
    by rewrite bool_decide_eq_false_2 in Hres by (by intros [? ?]). }
  assert (Hgo : ∀ w1 : World,
             files w1 = files w → sent w1 = sent w → listdir w1 = listdir w →
             (u "job_description.txt" ∈ dirs w1 → u "job_description.txt" ∈ dirs w) →
             let rest :=
               (pdf_files <- glob_pdf (u "resume") ;;
                match pdf_files with
                | [] => print (u "No PDF resume found in the 'resume' folder. Please add a resume.")
                | resume_name :: _ =>
                  print (u "Found resume: " ++ resume_name) ;;
                  there <- path_exists (u "job_description.txt") ;;
                  if negb there then
                    print (u "Job description file 'job_description.txt' not found. Please create this file with the job requirements.")
                  else
                  additional_details <- load_additional_details ;;
                  extracted <- extract_from_pdf (joinpath (u "resume") resume_name) ;;
                  match extracted with
                  | (None, _) | (Some [], _) | (_, None) =>
                    print (u "Failed to extract text from the resume.")
                  | (Some resume_text, Some resume_structure) =>
                    job_description <- read_text (u "job_description.txt") utf_8 ;;
                    optimized <- optimize_resume_with_gemini resume_text resume_structure
                                   job_description additional_details ;;
                    match optimized with
                    | None | Some [] => print (u "Failed to optimize the resume.")
                    | Some optimized_resume =>
                      save_and_render (u "newresume") resume_name optimized_resume
                    end
                  end
                end) in
             P (rest w1)).
  { intros w1 Hf Hs Hl Hd rest. subst rest.
    unfold bind at 1. unfold glob_pdf. rewrite Hl.
    destruct H as [->|[Hjf Hjd]]; [by rewrite print_spec|].
    destruct (filter _ _) as [|resume_name others]; [by rewrite print_spec|].
    unfold bind at 1. rewrite print_spec.
    unfold bind at 1. unfold path_exists. cbn [files dirs set_console].
    rewrite Hf, Hjf. rewrite bool_decide_eq_false_2 by (intros ?; by apply Hjd, Hd).
    rewrite bool_decide_eq_false_2 by (by intros [? ?]). cbn [orb negb].
    by rewrite print_spec. }
  unfold bind at 1. unfold path_exists at 1.
  destruct (bool_decide (u "newresume" ∈ dirs w) || _); cbn [negb].
  - unfold bind at 1. unfold ret at 1. by apply Hgo.
  - unfold bind at 1. unfold makedirs.
    destruct (writable w (u "newresume")); [|done].
    apply Hgo; try done. cbn [dirs set_dirs].
    intros [Heq%elem_of_singleton|?]%elem_of_union; [|done].
    vm_compute in Heq. discriminate.
Qed.

Lemma main_stops_without_inputs_witness :
  files (snd (main keyless_no_job_world)) = files keyless_no_job_world
  ∧ sent (snd (main keyless_no_job_world)) = sent keyless_no_job_world.
Proof.
  apply main_stops_without_inputs. right. right.
  split; [|apply (proj1 (bool_decide_eq_false _)); vm_compute]; reflexivity.
Defined.

(** ** Layout Renderer: what a match can hold *)

Lemma few_sound (p : N → bool) (k : kont) (prev : option N) (s : str)
    (g : groups) (x : str * groups) :
  few p k prev s g = Some x →
  ∃ m rest prev', s = m ++ rest ∧ k prev' rest g = Some x.
Proof.
  revert prev. induction s as [|c s IH]; intros prev H; cbn [few] in H.
  - destruct (k prev [] g) eqn:E; [|done]. exists [], [], prev. by rewrite E.
  - destruct (k prev (c :: s) g) eqn:E.
    + exists [], (c :: s), prev. by rewrite E.
    + destruct (p c); [|done]. apply IH in H as (m & rest & prev' & -> & Hk).
      by exists (c :: m), rest, prev'.
Qed.

(** Matching never invents characters: from a text whose characters all
    satisfy [P], what is left and what the groups hold satisfy [P] too. *)
Lemma rmatch_keeps (P : N → Prop) (r : regex) :
  ∀ k : kont,
    (∀ prev s g x, Forall P s → groups_in P g → k prev s g = Some x →
                   Forall P (fst x) ∧ groups_in P (snd x)) →
    ∀ prev s g x, Forall P s → groups_in P g → rmatch r k prev s g = Some x →
                  Forall P (fst x) ∧ groups_in P (snd x).
Proof.
  assert (Hone : ∀ (p : N → bool) (k : kont),
             (∀ prev s g x, Forall P s → groups_in P g → k prev s g = Some x →
                            Forall P (fst x) ∧ groups_in P (snd x)) →
             ∀ s g x, Forall P s → groups_in P g → one p k s g = Some x →
                      Forall P (fst x) ∧ groups_in P (snd x)).
  { intros p k Hk s g x Hs Hg H. unfold one in H. destruct s as [|c s]; [done|].
    destruct (p c); [|done]. apply Forall_cons in Hs as [_ Hs]. eauto. }
  induction r as [|c|c|cs|cs lo|cs|r1 IH1 r2 IH2|r1 IH1 r2 IH2|n r IH| |word|r IH];
    intros k Hk prev s g x Hs Hg H; cbn [rmatch] in H.
  - eauto.
  - eauto.
  - eauto.
  - eauto.
  - apply many_sound in H as (m & rest & -> & _ & _ & H).
    apply Forall_app in Hs as [_ Hs]. eauto.
  - apply few_sound in H as (m & rest & prev' & -> & H).
    apply Forall_app in Hs as [_ Hs]. eauto.
  - eapply IH1; [| | |exact H]; eauto.
  - destruct (rmatch r1 k prev s g) eqn:E.
    + injection H as <-. eapply IH1; eauto.
    + eapply IH2; eauto.
  - eapply IH; [| | |exact H]; [|done|done].
    intros prev' s' g' x' Hs' Hg' Hk'. eapply Hk; [done| |exact Hk'].
    constructor; [|done]. cbn [snd]. by apply Forall_take.
  - destruct prev; [done|]. eauto.
  - destruct (xorb _ _); [|done]. eauto.
  - destruct (rmatch r _ prev s g) as [[rest g']|] eqn:E; [|done].
    assert (Hin : ∀ (prev0 : option N) (s0 : str) (g0 : groups) (x0 : str * groups),
               Forall P s0 → groups_in P g0 →
               (fun (_ : option N) (_ : str) (g1 : groups) => Some ([], g1))
                 prev0 s0 g0 = Some x0 →
               Forall P (fst x0) ∧ groups_in P (snd x0)).
    { intros ? ? ? ? ? ? [= <-]. by split. }
    destruct (IH _ Hin prev s g (rest, g') Hs Hg E) as [_ Hg'].
    eapply Hk; [done|exact Hg'|exact H].
Qed.

Lemma assoc_keeps (P : N → Prop) (n : nat) (g : groups) :
  groups_in P g → Forall P (assoc n g).
Proof.
  intros Hg. induction Hg as [|[i v] g Hv Hg IH]; cbn [assoc]; [constructor|].
  by destruct (Nat.eqb i n).
Qed.

Lemma match_here_keeps (P : N → Prop) (r : regex) (prev : option N) (s : str)
    (pos : nat) (m : Match) :
  Forall P s → match_here r prev s pos = Some m → ∀ n, Forall P (group m n).
Proof.
  intros Hs H n. unfold match_here in H.
  destruct (rmatch r accept prev s []) as [[rest g]|] eqn:E; [|done].
  injection H as <-. eapply (rmatch_keeps P) in E as [_ Hg];
    [| |done|constructor].
  - destruct n; cbn [group span caps]; [by apply Forall_take | by apply assoc_keeps].
  - intros ? ? ? ? ? ? [= <-]. by split.
Qed.

Lemma search_from_keeps (P : N → Prop) (r : regex) (prev : option N) (s : str)
    (pos : nat) (m : Match) :
  Forall P s → search_from r prev s pos = Some m → ∀ n, Forall P (group m n).
Proof.
  revert prev pos. induction s as [|c s IH]; intros prev pos Hs H;
    cbn [search_from] in H.
  - destruct (match_here r prev [] pos) eqn:E; [|done]. injection H as <-.
    by eapply match_here_keeps.
  - destruct (match_here r prev (c :: s) pos) eqn:E.
    + injection H as <-. by eapply match_here_keeps.
    + apply Forall_cons in Hs as [_ Hs]. by eapply IH.
Qed.

Lemma finditer_from_keeps (P : N → Prop) (r : regex) (prev : option N) (s : str)
    (pos skip : nat) :
  Forall P s →
  Forall (fun m => ∀ n, Forall P (group m n)) (finditer_from r prev s pos skip).
Proof.
  revert prev pos skip. induction s as [|c s IH]; intros prev pos skip Hs.
  - destruct skip; cbn [finditer_from]; [|constructor].
    destruct (match_here r prev [] pos) eqn:E; constructor; [|constructor].
    by eapply match_here_keeps.
  - pose proof Hs as Hcs. apply Forall_cons in Hs as [_ Hs].
    destruct skip; cbn [finditer_from]; [|by apply IH].
    destruct (match_here r prev (c :: s) pos) eqn:E; [|by apply IH].
    constructor; [by eapply match_here_keeps | by apply IH].
Qed.

Lemma sub1_from_keeps (P : N → Prop) (r : regex) (prev : option N) (s : str)
    (skip : nat) :
  Forall P s → Forall P (sub1_from r prev s skip).
Proof.
  revert prev skip. induction s as [|c s IH]; intros prev skip Hs.
  - destruct skip; cbn [sub1_from]; [|constructor].
    destruct (match_here r prev [] 0) eqn:E; [|constructor].
    rewrite app_nil_r. by eapply (match_here_keeps P _ _ _ _ _ Hs E 1%nat).
  - pose proof Hs as Hcs. apply Forall_cons in Hs as [Hc Hs].
    destruct skip; cbn [sub1_from]; [|by apply IH].
    destruct (match_here r prev (c :: s) 0) eqn:E.
    + apply Forall_app. split; [by eapply (match_here_keeps P _ _ _ _ _ Hcs E 1%nat)|].
      destruct (length (span m)); [constructor; [done|]|]; by apply IH.
    + constructor; [done | by apply IH].
Qed.

Lemma replace_aux_keeps (P : N → Prop) (old new s : str) (skip : nat) :
  Forall P new → Forall P s → Forall P (replace_aux old new s skip).
Proof.
  intros Hnew. revert skip. induction s as [|c s IH]; intros skip Hs;
    cbn [replace_aux]; [constructor|].
  apply Forall_cons in Hs as [Hc Hs]. destruct skip; [|by apply IH].
  destruct (prefixb old (c :: s)).
  - apply Forall_app. split; [done | by apply IH].
  - constructor; [done | by apply IH].
Qed.

Lemma latin1_Forall (s : str) : latin1 s = true ↔ Forall (fun c => c < 256) s.
Proof.
  unfold latin1. rewrite forallb_forall, Forall_forall.
  split; intros H c Hc.
  - apply N.ltb_lt, H. by apply list_elem_of_In.
  - apply N.ltb_lt, H. by apply list_elem_of_In.
Qed.

Lemma latin1_encodes (s : str) : latin1 s = true → is_Some (Utf8.encode s).
Proof.
  intros H. apply latin1_Forall in H.
  induction H as [|c s Hc Hs IH]; cbn [Utf8.encode]; [eauto|].
  destruct IH as [b ->]. unfold Utf8.encode1.
  destruct (N.ltb_spec c 128); [eauto|].
  destruct (N.ltb_spec c 2048); [eauto|lia].
Qed.

(** ** Layout Renderer: when a preview is produced *)

Lemma succeeds_then (d1 d2 : drawing) : succeeds d1 → succeeds d2 → succeeds (d1 >> d2).
Proof.
  intros H1 H2 pdf. unfold and_then. destruct (H1 pdf) as [pdf' ->]. apply H2.
Qed.

Lemma succeeds_emit (o : pdf_op) : succeeds (emit o).
Proof. intros pdf. unfold emit. eauto. Qed.

Lemma succeeds_text (txt : str) (o : pdf_op) : latin1 txt = true → succeeds (text_op txt o).
Proof. intros H pdf. unfold text_op. rewrite H. eauto. Qed.

Lemma succeeds_for_each {A} (l : list A) (body : A → drawing) :
  Forall (fun x => succeeds (body x)) l → succeeds (for_each l body).
Proof.
  intros H. induction H as [|x l Hx Hl IH]; cbn [for_each].
  - intros pdf. unfold skip. eauto.
  - by apply succeeds_then.
Qed.

Ltac draws :=
  repeat first
    [ apply succeeds_then
    | apply succeeds_emit
    | apply succeeds_text ].

Lemma latin1_groups (r : regex) (s : str) :
  latin1 s = true →
  Forall (fun m => ∀ n, latin1 (group m n) = true) (re_finditer r s).
Proof.
  intros H. apply latin1_Forall in H.
  eapply Forall_impl; [by apply (finditer_from_keeps (fun c => c < 256))|].
  intros m Hm n. by apply latin1_Forall.
Qed.

Lemma draw_section_succeeds (m : Match) :
  (∀ n, latin1 (group m n) = true) →
  re_finditer bullet_re (group m 2) = [] →
  succeeds (draw_section m).
Proof.
  intros Hm Hb. unfold draw_section. rewrite Hb. cbv zeta.
  unfold set_font, cell, ln. draws; try apply Hm.
  - apply succeeds_for_each.
    eapply Forall_impl; [apply (latin1_groups subheading_re), Hm|].
    intros s Hs. unfold draw_subheading, set_font, cell, ln. draws; apply Hs.
  - apply succeeds_for_each.
    eapply Forall_impl; [apply (latin1_groups project_re), Hm|].
    intros s Hs. unfold draw_project, set_font, cell, ln. draws; try apply Hs.
    apply latin1_Forall. unfold re_sub1. do 2 apply sub1_from_keeps.
    apply latin1_Forall, Hs.
  - intros pdf. cbn [for_each]. unfold skip. eauto.
  - destruct (bool_decide _); [|intros pdf; unfold skip; eauto].
    apply succeeds_for_each.
    eapply Forall_impl; [apply (latin1_groups skills_re), Hm|].
    intros s Hs. unfold draw_skill, set_font, cell, multi_cell. draws; try apply Hs.
    apply latin1_Forall, Forall_app. split; [apply latin1_Forall, Hs|].
    apply latin1_Forall. vm_compute. reflexivity.
Qed.

Lemma draw_resume_succeeds (content : str) :
  latin1 content = true → has_bullet_item content = false →
  succeeds (draw_resume content).
Proof.
  intros Hl Hb. pose proof Hl as HF. apply latin1_Forall in HF.
  unfold draw_resume, set_font, cell, ln. draws.
  - unfold header_name. destruct (re_search name_re content) as [m|] eqn:E;
      [|vm_compute; reflexivity].
    apply latin1_Forall. by eapply search_from_keeps.
  - unfold header_contact. apply latin1_Forall. unfold replace.
    apply replace_aux_keeps; [apply latin1_Forall; vm_compute; reflexivity|].
    unfold re_sub1. apply sub1_from_keeps.
    destruct (re_search contact_re content) as [m|] eqn:E; [|constructor].
    by eapply search_from_keeps.
  - apply succeeds_for_each. unfold has_bullet_item in Hb.
    pose proof (latin1_groups section_re content Hl) as Hg.
    rewrite Forall_forall in Hg. apply Forall_forall. intros m Hm.
    apply draw_section_succeeds; [by apply Hg|].
    destruct (re_finditer bullet_re (group m 2)) eqn:E; [done|].
    assert (Hex : existsb (fun m => match re_finditer bullet_re (group m 2) with
                                    | [] => false | _ :: _ => true end)
                    (re_finditer section_re content) = true).
    { apply existsb_exists. exists m. split; [by apply list_elem_of_In|].
      by rewrite E. }
    congruence.
Qed.

(** A latin-1 reply without a bullet item always gets its preview: if
    every character of the reply is below U+0100, no section holds a
    [\resumeItem] and the two paths can be written, [create_pdf_resume]
    returns the destination and the preview is on disk there. *)
Theorem latin1_reply_without_bullets_is_previewed (w : World)
    (content output_path : str) :
  latin1 content = true → has_bullet_item content = false →
  writable w output_path = true →
  writable w (replace (u ".pdf") (u ".tex") output_path) = true →
  ∃ pdf w', draw_resume content [] = Ret pdf
    ∧ create_pdf_resume content output_path w = (Ret (Some output_path), w')
    ∧ files w' !! output_path = Some (pdf_writer w pdf).
Proof.
  intros Hl Hb Hout Htex.
  destruct (draw_resume_succeeds content Hl Hb []) as [pdf Hd].
  destruct (latin1_encodes content Hl) as [b Hb'].
  exists pdf. unfold create_pdf_resume. run. cbv zeta. rewrite Hd.
  destruct (negb (contains (u ".tex") output_path)); rewrite ?Htex, ?Hb'.
  - cbn [writable set_files]. rewrite Hout. eexists. split; [done|].
    split; [reflexivity|]. cbn [files set_files pdf_writer]. by rewrite lookup_insert_eq.
  - rewrite Hout. eexists. split; [done|].
    split; [reflexivity|]. cbn [files set_files pdf_writer]. by rewrite lookup_insert_eq.
Qed.

Lemma latin1_reply_without_bullets_is_previewed_witness :
  ∃ pdf w', draw_resume plain_reply [] = Ret pdf
    ∧ create_pdf_resume plain_reply (u "newresume/optimized_cv.pdf") demo_world
      = (Ret (Some (u "newresume/optimized_cv.pdf")), w')
    ∧ files w' !! u "newresume/optimized_cv.pdf"
      = Some (pdf_writer demo_world pdf).
Proof.
  apply (latin1_reply_without_bullets_is_previewed demo_world);
    vm_compute; reflexivity.
Defined.


